(** * gophertunnel: the resource pack queue and the dialer of package minecraft

    A shallow embedding of [resourcePackQueue] (Request, NextPack,
    AllDownloaded) and of [Dialer.Dial] with [authChain], followed by the
    properties of the specification that concern them.

    Go maps are stdpp [gmap]s, Go strings are [string]s, Go integers are [Z]
    with the conversions that can wrap written out.  A [*resource.Pack] is
    modelled by the value it points to: no function of the queue compares or
    mutates a pack through its pointer. *)

From Stdlib Require Import ZArith Lia.
From stdpp Require Import base strings list gmap fin_maps.

Local Open Scope Z_scope.
Local Open Scope string_scope.
Local Open Scope list_scope.

(* ===================================================================== *)
(** ** Machine integers *)

(** The conversion [int32(x)] of a Go [int]: the low 32 bits, read as a
    two's complement number. *)
Definition int32 (x : Z) : Z := (x + 2 ^ 31) mod 2 ^ 32 - 2 ^ 31.

(** The conversion [int64(x)] of a Go [int]: the low 64 bits, read as a
    two's complement number. *)
Definition int64 (x : Z) : Z := (x + 2 ^ 63) mod 2 ^ 64 - 2 ^ 63.

(** The range of a Go [int] on a 64-bit platform. *)
Definition is_int (x : Z) : Prop := - 2 ^ 63 <= x < 2 ^ 63.

(** A Go [error] value is modelled by its message; [nil] is [None]. *)
Definition error : Type := string.

(* ===================================================================== *)
(** ** Package resource *)

Module resource.

(** Modelled from the spec: the type [resource.Pack] and its methods UUID(),
    Version(), Len() and Checksum() are declared in package resource, which
    is not among the sources.  The specification gives a pack a UUID, a
    version string, a total size and a checksum; the methods are the
    projections. *)
Record Pack : Type := mkPack {
  UUID : string;
  Version : string;
  Len : Z;
  Checksum : string;
}.

#[global] Instance Pack_eq_dec : EqDecision Pack.
Proof. solve_decision. Defined.

(** Modelled from the spec: [Pack.DataChunkCount(length)] is declared in
    package resource, which is not among the sources.  The specification
    describes the chunk count as the ceiling of size/chunk-size: the whole
    chunks, and one more when a remainder is left. *)
Definition DataChunkCount (pack : Pack) (length : Z) : Z :=
  let count := Len pack `quot` length in
  if decide (Len pack `rem` length = 0) then count else count + 1.

End resource.

(* ===================================================================== *)
(** ** Package packet: the packets the modelled functions build *)

Module packet.

(** The fields [NextPack] fills in.  [ChunkCount] is an int32 and [Size] an
    int64, as the conversions in [NextPack] show. *)
Record ResourcePackDataInfo : Type := mkResourcePackDataInfo {
  UUID : string;
  DataChunkSize : Z;
  ChunkCount : Z;
  Size : Z;
  Hash : string;
}.

(** The packet identifiers [Dial] names. *)
Inductive ID : Type :=
  | IDLogin
  | IDPlayStatus
  | IDServerToClientHandshake.

End packet.

(* ===================================================================== *)
(** ** The resource pack queue *)

Module downloadingPack.

(** [downloadingPack]: a pack being downloaded by a client connection.  The
    channel [newFrag] is modelled by the fragments it holds. *)
Record t : Type := mk {
  buf : list Byte.byte;
  chunkSize : Z;
  size : Z;
  expectedIndex : Z;
  newFrag : list (list Byte.byte);
}.

End downloadingPack.

Record resourcePackQueue : Type := mkQueue {
  packs : list resource.Pack;
  packsToDownload : gmap string resource.Pack;
  currentPack : option resource.Pack;
  currentOffset : Z;
  packAmount : Z;
  downloadingPacks : gmap string downloadingPack.t;
  awaitingPacks : gmap string downloadingPack.t;
}.

(** The assignment [queue.packsToDownload = m]. *)
Definition set_packsToDownload
    (queue : resourcePackQueue) (m : gmap string resource.Pack) : resourcePackQueue :=
  {| packs := packs queue;
     packsToDownload := m;
     currentPack := currentPack queue;
     currentOffset := currentOffset queue;
     packAmount := packAmount queue;
     downloadingPacks := downloadingPacks queue;
     awaitingPacks := awaitingPacks queue |}.

(** The identifier a peer uses for a pack:
    [pack.UUID() + "_" + pack.Version()]. *)
Definition packIdentifier (pack : resource.Pack) : string :=
  resource.UUID pack +:+ "_" +:+ resource.Version pack.

(** The inner loop of [Request]: the first pack of [queue.packs] whose
    identifier is [packUUID]; [None] is [found == false]. *)
Fixpoint findPack (catalog : list resource.Pack) (packUUID : string) : option resource.Pack :=
  match catalog with
  | [] => None
  | pack :: rest =>
      if String.eqb (packIdentifier pack) packUUID then Some pack
      else findPack rest packUUID
  end.

(** The outer loop of [Request] over the identifiers still to process,
    with the map built so far. *)
Fixpoint requestLoop (catalog : list resource.Pack) (ids : list string)
    (toDownload : gmap string resource.Pack) : gmap string resource.Pack * option error :=
  match ids with
  | [] => (toDownload, None)
  | packUUID :: rest =>
      match findPack catalog packUUID with
      | Some pack => requestLoop catalog rest (<[resource.UUID pack := pack]> toDownload)
      | None => (toDownload, Some ("could not find resource pack " +:+ packUUID))
      end
  end.

(** [Request]: the queue after the call, and the error returned. *)
Definition Request (queue : resourcePackQueue) (ids : list string)
    : resourcePackQueue * option error :=
  let '(toDownload, err) := requestLoop (packs queue) ids ∅ in
  (set_packsToDownload queue toDownload, err).

(** [AllDownloaded]: [len(queue.packsToDownload) == 0]. *)
Definition AllDownloaded (queue : resourcePackQueue) : bool :=
  bool_decide (size (packsToDownload queue) = 0%nat).

(** The entry a [for index, pack := range m] loop visits first.  Go leaves
    the iteration order of a map unspecified, so the choice is a parameter
    of [NextPack]; it is a valid one when it picks an entry of the map, and
    none only when the map is empty. *)
Definition rangeChoice : Type :=
  gmap string resource.Pack → option (string * resource.Pack).

Definition validRange (range : rangeChoice) : Prop :=
  ∀ m, match range m with
       | Some (index, pack) => m !! index = Some pack
       | None => m = ∅
       end.

(** One valid choice: the first entry in the order of the keys' encoding. *)
Definition rangeFirst : rangeChoice := λ m, head (map_to_list m).

Section NextPack.

(** [packChunkSize] is a constant of the package, declared outside the
    sources at hand. *)
Variable packChunkSize : Z.
Variable range : rangeChoice.

(** [NextPack]: the queue after the call, the packet and [ok]. *)
Definition NextPack (queue : resourcePackQueue)
    : resourcePackQueue * option packet.ResourcePackDataInfo * bool :=
  match range (packsToDownload queue) with
  | Some (index, pack) =>
      let queue' :=
        {| packs := packs queue;
           packsToDownload := delete index (packsToDownload queue);
           currentPack := Some pack;
           currentOffset := 0;
           packAmount := packAmount queue;
           downloadingPacks := downloadingPacks queue;
           awaitingPacks := awaitingPacks queue |} in
      (queue',
       Some {| packet.UUID := resource.UUID pack;
               packet.DataChunkSize := packChunkSize;
               packet.ChunkCount := int32 (resource.DataChunkCount pack packChunkSize);
               packet.Size := int64 (resource.Len pack);
               packet.Hash := resource.Checksum pack |},
       true)
  | None => (queue, None, false)
  end.

End NextPack.

(** A queue as the connection layer creates it: a catalog and nothing else. *)
Definition newQueue (catalog : list resource.Pack) : resourcePackQueue :=
  {| packs := catalog;
     packsToDownload := ∅;
     currentPack := None;
     currentOffset := 0;
     packAmount := 0;
     downloadingPacks := ∅;
     awaitingPacks := ∅ |}.

(* ===================================================================== *)
(** ** The collaborators of the dialer *)

Module net.

(** A [net.Conn]: the transport connection a dial returns, known to the
    dialer by its identity only. *)
Inductive Conn : Type := conn (id : nat).

End net.

Module ecdsa.

(** An [*ecdsa.PrivateKey], known to the dialer by its identity only. *)
Inductive PrivateKey : Type := privateKey (id : nat).

End ecdsa.

Module log.

(** Where a logger writes. *)
Inductive Writer : Type := Stderr | writer (id : nat).

(** A [*log.Logger] as [log.New(out, prefix, flag)] builds it. *)
Record Logger : Type := New { out : Writer; prefix : string; flag : Z }.

(** [log.LstdFlags = Ldate | Ltime]. *)
Definition LstdFlags : Z := Z.lor 1 2.

End log.

Module protocol.

Definition CurrentProtocol : Z := 361.
Definition CurrentVersion : string := "1.12.0".

End protocol.

Module login.

(** The fields of [login.ClientData] that [defaultClientData] fills in. *)
Record ClientData : Type := mkClientData {
  ClientRandomID : Z;
  DeviceOS : Z;
  GameVersion : string;
  DeviceID : string;
  LanguageCode : string;
  ThirdPartyName : string;
  SelfSignedID : string;
  SkinGeometryName : string;
  ServerAddress : string;
  SkinID : string;
  SkinData : string;
}.

#[global] Instance ClientData_eq_dec : EqDecision ClientData.
Proof. solve_decision. Defined.

(** The zero value [var emptyClientData login.ClientData]. *)
Definition emptyClientData : ClientData :=
  mkClientData 0 0 "" "" "" "" "" "" "" "" "".

End login.

(** The packet [Dial] sends: [packet.Login]. *)
Record Login : Type := mkLogin {
  ConnectionRequest : list Byte.byte;
  ClientProtocol : Z;
}.

(** A value of the function type of [Dialer.PacketFunc], known by its
    identity only. *)
Inductive packetObserver : Type := observer (id : nat).

(** Modelled from the spec: the type [Conn] and its constructor [newConn]
    are declared outside the sources at hand.  The record keeps what [Dial]
    gives a connection: the transport connection, the key and the logger
    passed to [newConn], the client data, the packet function, and the
    identifiers of the packets it expects. *)
Record Conn : Type := mkConn {
  netConn : net.Conn;
  privateKey : option ecdsa.PrivateKey;
  logger : log.Logger;
  clientData : login.ClientData;
  packetFunc : option packetObserver;
  expectedIDs : list packet.ID;
}.

Definition newConn (netConn : net.Conn) (key : option ecdsa.PrivateKey) (logger : log.Logger) : Conn :=
  mkConn netConn key logger login.emptyClientData None [].

Definition set_clientData (c : Conn) (data : login.ClientData) : Conn :=
  mkConn (netConn c) (privateKey c) (logger c) data (packetFunc c) (expectedIDs c).

Definition set_packetFunc (c : Conn) (f : option packetObserver) : Conn :=
  mkConn (netConn c) (privateKey c) (logger c) (clientData c) f (expectedIDs c).

(** [conn.expect(ids...)]. *)
Definition expect (c : Conn) (ids : list packet.ID) : Conn :=
  mkConn (netConn c) (privateKey c) (logger c) (clientData c) (packetFunc c) ids.

(** The two one-shot signals of a connection. *)
Inductive Signal : Type := connected | close.

#[global] Instance Signal_eq_dec : EqDecision Signal.
Proof. solve_decision. Defined.

(** What the dialer obtains from outside the sources at hand: the answers
    of the transport, of the key generator, of the three token exchanges of
    package auth, the random draws of [defaultClientData], the constant
    [device.Win10], the encoders, the result of writing the login packet, the
    order in which the signals of the connection fire, how many of them have
    fired by the time the dial reaches its [select], and the case the
    runtime picks when it finds both ready. *)
Record World : Type := mkWorld {
  raknet_Dial : string → net.Conn + error;
  net_Dial : string → string → net.Conn + error;
  ecdsa_GenerateKey : option ecdsa.PrivateKey;
  auth_RequestLiveToken : string → string → string + error;
  auth_RequestXSTSToken : string → string + error;
  auth_RequestMinecraftChain : string → option ecdsa.PrivateKey → string + error;
  rand_Int63 : Z;
  uuid_NewRandom : nat → string;
  device_Win10 : Z;
  base64_EncodeToString : list Byte.byte → string;
  login_Encode : string → login.ClientData → option ecdsa.PrivateKey → list Byte.byte;
  conn_WritePacket : Conn → Login → option error;
  signals : list Signal;
  firedBeforeSelect : nat;
  selectPick : Signal;
}.

(** The actions of a dial that the outside sees, each with its answer. *)
Inductive Effect : Type :=
  | RaknetDial (address : string) (answer : net.Conn + error)
  | NetDial (network address : string) (answer : net.Conn + error)
  | GenerateKey (answer : option ecdsa.PrivateKey)
  | RequestLiveToken (email password : string) (answer : string + error)
  | RequestXSTSToken (liveToken : string) (answer : string + error)
  | RequestMinecraftChain (xsts : string) (key : option ecdsa.PrivateKey) (answer : string + error)
  | GoListenConn (c : Conn) (logger : log.Logger)
  | WritePacket (c : Conn) (pk : Login) (answer : option error)
  | Receive (s : Signal)
  | SendClose.

(** A computation that performs actions in order and yields a value. *)
Definition IO (A : Type) : Type := list Effect * A.

#[global] Instance IO_ret : MRet IO := λ A a, ([], a).

#[global] Instance IO_bind : MBind IO := λ A B k m,
  let '(done, a) := m in
  let '(more, b) := k a in
  (done ++ more, b).

Definition perform {A : Type} (e : A → Effect) (answer : A) : IO A := ([e answer], answer).

Definition emit (e : Effect) : IO unit := ([e], tt).

(** How a call of [Dial] ends: it returns [(conn, err)], or it waits for a
    signal that never comes. *)
Inductive Outcome : Type :=
  | Returned (c : option Conn) (err : option error)
  | Blocked.

Record Dialer : Type := mkDialer {
  ErrorLog : option log.Logger;
  ClientData : login.ClientData;
  Email : string;
  Password : string;
  PacketFunc : option packetObserver;
}.

(* ===================================================================== *)
(** ** The dialer *)

(** [authChain]: the chain and the error, as the Go pair. *)
Definition authChain (w : World) (email password : string) (key : option ecdsa.PrivateKey)
    : IO (string * option error) :=
  liveToken ← perform (RequestLiveToken email password) (auth_RequestLiveToken w email password);
  match liveToken with
  | inr err => mret ("", Some ("error obtaining Live token: " +:+ err))
  | inl liveToken =>
      xsts ← perform (RequestXSTSToken liveToken) (auth_RequestXSTSToken w liveToken);
      match xsts with
      | inr err => mret ("", Some ("error obtaining XSTS token: " +:+ err))
      | inl xsts =>
          chain ← perform (RequestMinecraftChain xsts key) (auth_RequestMinecraftChain w xsts key);
          match chain with
          | inr err => mret ("", Some ("error obtaining Minecraft auth chain: " +:+ err))
          | inl chain => mret (chain, None)
          end
      end
  end.

(** [defaultClientData]; the random identifiers are drawn in the order of
    the fields. *)
Definition defaultClientData (w : World) (address : string) : login.ClientData :=
  {| login.ClientRandomID := rand_Int63 w;
     login.DeviceOS := device_Win10 w;
     login.GameVersion := protocol.CurrentVersion;
     login.DeviceID := uuid_NewRandom w 0;
     login.LanguageCode := "en_UK";
     login.ThirdPartyName := "Steve";
     login.SelfSignedID := uuid_NewRandom w 1;
     login.SkinGeometryName := "geometry.humanoid";
     login.ServerAddress := address;
     login.SkinID := uuid_NewRandom w 2;
     login.SkinData :=
       base64_EncodeToString w (replicate (Z.to_nat (32 * 64 * 4)) Byte.x00) |}.

Arguments defaultClientData : simpl never.

(** The signals that have fired when the dial reaches its [select]: the
    channels it finds ready. *)
Definition readySignals (w : World) : list Signal :=
  take (firedBeforeSelect w) (signals w).

(** The case the [select] of [Dial] proceeds on.  With both channels ready
    it is the one the runtime picks; with one ready, that one; with none
    ready the select waits and proceeds on the signal that fires next, if
    one ever does. *)
Definition selectCase (w : World) : option Signal :=
  match bool_decide (connected ∈ readySignals w), bool_decide (close ∈ readySignals w) with
  | true, true => Some (selectPick w)
  | true, false => Some connected
  | false, true => Some close
  | false, false => head (drop (firedBeforeSelect w) (signals w))
  end.

(** The [select] that ends [Dial]: it has no default case and no timer, so
    it waits while neither channel is ready, and among ready channels the
    runtime chooses, not the order in which they became ready. *)
Definition awaitSignal (w : World) (c : Conn) : IO Outcome :=
  match selectCase w with
  | None => mret Blocked
  | Some connected =>
      emit (Receive connected);;
      mret (Returned (Some c) None)
  | Some close =>
      emit (Receive close);;
      emit SendClose;;
      mret (Returned None (Some "connection timeout"))
  end.

(** The [switch] on the network that opens [Dial]. *)
Definition dialTransport (w : World) (network address : string) : IO (net.Conn + error) :=
  if String.eqb network "raknet"
  then perform (RaknetDial address) (raknet_Dial w address)
  else perform (NetDial network address) (net_Dial w network address).

(** The logger of a dial: [dialer.ErrorLog], or a logger on the standard
    error when that is nil. *)
Definition dialErrorLog (dialer : Dialer) : log.Logger :=
  match ErrorLog dialer with
  | None => log.New log.Stderr "" log.LstdFlags
  | Some l => l
  end.

(** The connection [Dial] sets up, from [newConn] to [conn.expect]. *)
Definition dialConn (w : World) (dialer : Dialer) (address : string)
    (netConn : net.Conn) (key : option ecdsa.PrivateKey) : Conn :=
  let c := newConn netConn key (dialErrorLog dialer) in
  let c := set_clientData c (defaultClientData w address) in
  let c := set_packetFunc c (PacketFunc dialer) in
  let c := if decide (ClientData dialer ≠ login.emptyClientData)
           then set_clientData c (ClientData dialer) else c in
  expect c [packet.IDServerToClientHandshake; packet.IDPlayStatus].

(** The login packet of a dial. *)
Definition loginPacket (w : World) (chainData : string) (c : Conn)
    (key : option ecdsa.PrivateKey) : Login :=
  let request := login_Encode w chainData (clientData c) key in
  mkLogin request protocol.CurrentProtocol.

(** The authentication stage of a dial: [authChain] when an e-mail address
    is given, nothing otherwise. *)
Definition dialAuth (w : World) (dialer : Dialer) (key : option ecdsa.PrivateKey)
    : IO (string * option error) :=
  if negb (String.eqb (Email dialer) "")
  then authChain w (Email dialer) (Password dialer) key
  else mret ("", None).

(** [Dialer.Dial]. *)
Definition Dial (w : World) (dialer : Dialer) (network address : string) : IO Outcome :=
  dialed ← dialTransport w network address;
  match dialed with
  | inr err => mret (Returned None (Some err))
  | inl netConn =>
      key ← perform GenerateKey (ecdsa_GenerateKey w);
      '(chainData, err) ← dialAuth w dialer key;
      match err with
      | Some err => mret (Returned None (Some err))
      | None =>
          let c := dialConn w dialer address netConn key in
          emit (GoListenConn c (dialErrorLog dialer));;
          let pk := loginPacket w chainData c key in
          written ← perform (WritePacket c pk) (conn_WritePacket w c pk);
          match written with
          | Some err => mret (Returned None (Some err))
          | None => awaitSignal w c
          end
      end
  end.

(** The package-level [Dial]: the zero [Dialer]. *)
Definition DialDefault (w : World) (network address : string) : IO Outcome :=
  Dial w (mkDialer None login.emptyClientData "" "" None) network address.

(** The three token exchanges [authChain] goes through. *)
Inductive Stage : Type := LiveToken | XSTSToken | MinecraftChain.

(** The words [authChain] puts before the error of a stage. *)
Definition stageError (s : Stage) : string :=
  match s with
  | LiveToken => "error obtaining Live token: "
  | XSTSToken => "error obtaining XSTS token: "
  | MinecraftChain => "error obtaining Minecraft auth chain: "
  end.

(** The stage ran and failed with [err] in the course of the actions. *)
Definition stageFailed (actions : list Effect) (s : Stage) (err : error) : Prop :=
  match s with
  | LiveToken => ∃ email password, RequestLiveToken email password (inr err) ∈ actions
  | XSTSToken => ∃ liveToken, RequestXSTSToken liveToken (inr err) ∈ actions
  | MinecraftChain => ∃ xsts key, RequestMinecraftChain xsts key (inr err) ∈ actions
  end.

(** A packet was written in the course of the actions. *)
Definition packetSent (actions : list Effect) : Prop :=
  ∃ c pk answer, WritePacket c pk answer ∈ actions.

(** An action of the token exchanges. *)
Definition isAuthAction (e : Effect) : bool :=
  match e with
  | RequestLiveToken _ _ _ | RequestXSTSToken _ _ | RequestMinecraftChain _ _ _ => true
  | _ => false
  end.

(** A packet written. *)
Definition isWrite (e : Effect) : bool :=
  match e with WritePacket _ _ _ => true | _ => false end.

(** The start of the ingestion task. *)
Definition isGoListenConn (e : Effect) : bool :=
  match e with GoListenConn _ _ => true | _ => false end.

(** What follows the writing of the login packet. *)
Definition afterLogin (w : World) (c : Conn) (written : option error) : IO Outcome :=
  match written with
  | Some err => mret (Returned None (Some err))
  | None => awaitSignal w c
  end.

(** A world in which every collaborator answers, for the examples; the
    dial reaches its select before any signal has fired. *)
Definition sampleWorld (xstsAnswer : string + error) (written : option error)
    (fired : list Signal) : World :=
  {| raknet_Dial := λ _, inl (net.conn 1);
     net_Dial := λ _ _, inl (net.conn 2);
     ecdsa_GenerateKey := Some (ecdsa.privateKey 7);
     auth_RequestLiveToken := λ _ _, inl "live";
     auth_RequestXSTSToken := λ _, xstsAnswer;
     auth_RequestMinecraftChain := λ _ _, inl "chain";
     rand_Int63 := 42;
     uuid_NewRandom := λ n, match n with O => "u0" | S O => "u1" | _ => "u2" end;
     device_Win10 := 7;
     base64_EncodeToString := λ _, "AAAA";
     login_Encode := λ _ _ _, [];
     conn_WritePacket := λ _ _, written;
     signals := fired;
     firedBeforeSelect := 0;
     selectPick := connected |}.

(** The world [w] with the dial reaching its select after [n] signals have
    fired, and the runtime picking [pick] when both channels are ready. *)
Definition atSelect (w : World) (n : nat) (pick : Signal) : World :=
  {| raknet_Dial := raknet_Dial w;
     net_Dial := net_Dial w;
     ecdsa_GenerateKey := ecdsa_GenerateKey w;
     auth_RequestLiveToken := auth_RequestLiveToken w;
     auth_RequestXSTSToken := auth_RequestXSTSToken w;
     auth_RequestMinecraftChain := auth_RequestMinecraftChain w;
     rand_Int63 := rand_Int63 w;
     uuid_NewRandom := uuid_NewRandom w;
     device_Win10 := device_Win10 w;
     base64_EncodeToString := base64_EncodeToString w;
     login_Encode := login_Encode w;
     conn_WritePacket := conn_WritePacket w;
     signals := signals w;
     firedBeforeSelect := n;
     selectPick := pick |}.

(* ===================================================================== *)
(** ** Notions the properties of the queue are stated with *)

(** The packs [Request] resolves, in order, from the identifiers it
    processes before it returns: all of them when every identifier resolves,
    those before the first unresolvable identifier otherwise. *)
Fixpoint resolvedPrefix (catalog : list resource.Pack) (ids : list string) : list resource.Pack :=
  match ids with
  | [] => []
  | packUUID :: rest =>
      match findPack catalog packUUID with
      | Some pack => pack :: resolvedPrefix catalog rest
      | None => []
      end
  end.

(** The first identifier of the list that no offered pack answers to. *)
Fixpoint firstMissing (catalog : list resource.Pack) (ids : list string) : option string :=
  match ids with
  | [] => None
  | packUUID :: rest =>
      match findPack catalog packUUID with
      | Some _ => firstMissing catalog rest
      | None => Some packUUID
      end
  end.

(** [queue.packsToDownload[pack.UUID()] = pack], for each pack in turn. *)
Definition enqueue (toDownload : gmap string resource.Pack) (resolved : list resource.Pack)
    : gmap string resource.Pack :=
  foldl (λ m pack, <[resource.UUID pack := pack]> m) toDownload resolved.

(** The states of the specification's state machine that a queue shows:
    a pack is Requested while it is in the set of packs to download, and
    Downloading while it is the current pack and the offset has not reached
    its size. *)
Definition isRequested (queue : resourcePackQueue) (pack : resource.Pack) : Prop :=
  ∃ index, packsToDownload queue !! index = Some pack.

Definition isDownloading (queue : resourcePackQueue) (pack : resource.Pack) : Prop :=
  currentPack queue = Some pack ∧ currentOffset queue < resource.Len pack.

(* ===================================================================== *)
(** ** Using the queue: the loop over NextPack *)

(** The packet [NextPack] builds for a pack. *)
Definition dataInfo (packChunkSize : Z) (pack : resource.Pack) : packet.ResourcePackDataInfo :=
  {| packet.UUID := resource.UUID pack;
     packet.DataChunkSize := packChunkSize;
     packet.ChunkCount := int32 (resource.DataChunkCount pack packChunkSize);
     packet.Size := int64 (resource.Len pack);
     packet.Hash := resource.Checksum pack |}.

(** [NextPack] called again and again until it returns false, each call
    with the iteration order the runtime takes for it; the queue that is
    left and the packets returned, in order. *)
Fixpoint NextPacks (packChunkSize : Z) (ranges : list rangeChoice) (queue : resourcePackQueue)
    : resourcePackQueue * list packet.ResourcePackDataInfo :=
  match ranges with
  | [] => (queue, [])
  | range :: rest =>
      match NextPack packChunkSize range queue with
      | (queue', Some pk, _) =>
          let '(final, pks) := NextPacks packChunkSize rest queue' in
          (final, pk :: pks)
      | (queue', None, _) => (queue', [])
      end
  end.

(** Every pack to download is an offered pack, filed under its UUID. *)
Definition requestedAreOffered (queue : resourcePackQueue) : Prop :=
  ∀ index pack, packsToDownload queue !! index = Some pack →
    index = resource.UUID pack ∧ pack ∈ packs queue.

(* ===================================================================== *)
(** ** The ingestion task *)

(** What [listenConn] meets outside the sources at hand: the answers of the
    successive calls of [conn.decoder.Decode()] (a call made when they are
    used up waits for ever), the test [raknet.ErrConnectionClosed], and the
    answer of [conn.handleIncoming] for a packet, which may depend on the
    packets handled before it. *)
Record Ingestion : Type := mkIngestion {
  decoder_Decode : list (list (list Byte.byte) + error);
  raknet_ErrConnectionClosed : error → bool;
  conn_handleIncoming : list (list Byte.byte) → list Byte.byte → option error;
}.

(** The actions of the ingestion task, each with its answer. *)
Inductive ListenEffect : Type :=
  | Decode (answer : list (list Byte.byte) + error)
  | HandleIncoming (data : list Byte.byte) (answer : option error)
  | Printf (logger : log.Logger) (message : string)
  | ConnClose (c : Conn).

(** The line feed that ends the first message of [listenConn]. *)
Definition newline : string := String (Ascii.ascii_of_nat 10) EmptyString.

(** The inner loop of [listenConn] over the packets of one decoded batch:
    the actions, the packets handled so far, and the error that ended the
    loop, if one did. *)
Fixpoint handlePackets (i : Ingestion) (handled packets : list (list Byte.byte))
    : list ListenEffect * list (list Byte.byte) * option error :=
  match packets with
  | [] => ([], handled, None)
  | data :: rest =>
      match conn_handleIncoming i handled data with
      | Some err => ([HandleIncoming data (Some err)], handled ++ [data], Some err)
      | None =>
          let '(actions, handled', failed) := handlePackets i (handled ++ [data]) rest in
          (HandleIncoming data None :: actions, handled', failed)
      end
  end.

(** The outer loop of [listenConn] over the answers of the decoder still to
    come: the actions, and whether the loop was left by a [return]. *)
Fixpoint listenLoop (i : Ingestion) (logger : log.Logger)
    (answers : list (list (list Byte.byte) + error)) (handled : list (list Byte.byte))
    : list ListenEffect * bool :=
  match answers with
  | [] => ([], false)
  | inr err :: _ =>
      (Decode (inr err) ::
         (if raknet_ErrConnectionClosed i err then []
          else [Printf logger ("error reading from client connection: " +:+ err +:+ newline)]),
       true)
  | inl packets :: rest =>
      let '(actions, handled', failed) := handlePackets i handled packets in
      match failed with
      | Some err =>
          (Decode (inl packets) :: actions ++ [Printf logger ("error: " +:+ err)], true)
      | None =>
          let '(more, returned) := listenLoop i logger rest handled' in
          (Decode (inl packets) :: actions ++ more, returned)
      end
  end.

(** [listenConn]: the actions, the deferred [conn.Close()] last, and whether
    the function returns. *)
Definition listenConn (i : Ingestion) (c : Conn) (logger : log.Logger)
    : list ListenEffect * bool :=
  let '(actions, returned) := listenLoop i logger (decoder_Decode i) [] in
  if returned then (actions ++ [ConnClose c], true) else (actions, false).

(** The packets given to [conn.handleIncoming] in the course of the
    actions, in order. *)
Definition handledPackets (actions : list ListenEffect) : list (list Byte.byte) :=
  omap (λ a, match a with HandleIncoming data _ => Some data | _ => None end) actions.

(** The answers of the decoder in the course of the actions, in order. *)
Definition decodeAnswers (actions : list ListenEffect)
    : list (list (list Byte.byte) + error) :=
  omap (λ a, match a with Decode answer => Some answer | _ => None end) actions.

(** The packets of the batches among the answers of the decoder. *)
Definition decodedPackets (answers : list (list (list Byte.byte) + error))
    : list (list Byte.byte) :=
  concat (omap (λ answer, match answer with inl packets => Some packets | inr _ => None end)
            answers).

(** An action that goes well: a batch decoded, a packet handled. *)
Definition isQuiet (a : ListenEffect) : bool :=
  match a with
  | Decode (inl _) | HandleIncoming _ None => true
  | _ => false
  end.

(** An action that fails: a decode error, a packet refused. *)
Definition isFailure (a : ListenEffect) : bool :=
  match a with
  | Decode (inr _) | HandleIncoming _ (Some _) => true
  | _ => false
  end.

(** How the actions of the loop end when it is left: on a decode error of
    a closed connection, silently; on another decode error or on a packet
    refused, with one line written to the logger. *)
Inductive ending (i : Ingestion) (logger : log.Logger) : list ListenEffect → Prop :=
  | ending_closed err :
      raknet_ErrConnectionClosed i err = true →
      ending i logger [Decode (inr err)]
  | ending_decode err :
      raknet_ErrConnectionClosed i err = false →
      ending i logger
        [Decode (inr err);
         Printf logger ("error reading from client connection: " +:+ err +:+ newline)]
  | ending_handle data err :
      ending i logger
        [HandleIncoming data (Some err); Printf logger ("error: " +:+ err)].

(** An ingestion for the examples: two batches, then the given answer. *)
Definition sampleIngestion (last : list (list Byte.byte) + error)
    (refused : list Byte.byte → bool) : Ingestion :=
  {| decoder_Decode := [inl [[Byte.x01]; [Byte.x02]]; inl []; inl [[Byte.x03]]; last];
     raknet_ErrConnectionClosed := λ err, String.eqb err "closed";
     conn_handleIncoming := λ _ data, if refused data then Some "unexpected packet" else None |}.

(** Case analysis on the membership of an action in a list of known shape. *)
Ltac elem_cases H :=
  repeat (apply elem_of_cons in H as [H | H]; [try discriminate H|]);
  try (by apply elem_of_nil in H).

(* ===================================================================== *)
(** ** Lemmas on the loops of Request *)

Lemma findPack_Some catalog packUUID pack :
  findPack catalog packUUID = Some pack →
  pack ∈ catalog ∧ packIdentifier pack = packUUID.
Proof.
  induction catalog as [|p rest IH]; simpl; [done|].
  destruct (String.eqb (packIdentifier p) packUUID) eqn:E.
  - intros [= <-]. apply String.eqb_eq in E. split; [left | done].
  - intros H. destruct (IH H) as [Hin Hid]. split; [by right | done].
Qed.

Lemma findPack_None catalog packUUID :
  findPack catalog packUUID = None ↔
  ∀ pack, pack ∈ catalog → packIdentifier pack ≠ packUUID.
Proof.
  induction catalog as [|p rest IH]; simpl.
  - split; [|done]. intros _ pack Hin. inversion Hin.
  - destruct (String.eqb (packIdentifier p) packUUID) eqn:E.
    + apply String.eqb_eq in E. split; [done|].
      intros H. exfalso. apply (H p); [left | done].
    + apply String.eqb_neq in E. rewrite IH. split.
      * intros H pack Hin. apply elem_of_cons in Hin as [-> | Hin]; auto.
      * intros H pack Hin. apply H. by right.
Qed.

Lemma findPack_first catalog packUUID pack :
  findPack catalog packUUID = Some pack ↔
  ∃ before after, catalog = before ++ pack :: after ∧
    packIdentifier pack = packUUID ∧
    ∀ other, other ∈ before → packIdentifier other ≠ packUUID.
Proof.
  induction catalog as [|p rest IH]; simpl.
  - split; [done|]. intros (before & after & Heq & _). by destruct before.
  - destruct (String.eqb (packIdentifier p) packUUID) eqn:E.
    + apply String.eqb_eq in E. split.
      * intros [= <-]. exists [], rest. split_and!; [done | done |].
        intros other Hin. inversion Hin.
      * intros (before & after & Heq & Hid & Hno).
        destruct before as [|b before]; simplify_eq/=; try done.
        exfalso. apply (Hno b); [left | done].
    + apply String.eqb_neq in E. rewrite IH. split.
      * intros (before & after & -> & Hid & Hno).
        exists (p :: before), after. split_and!; [done | done |].
        intros other Hin. apply elem_of_cons in Hin as [-> | Hin]; auto.
      * intros (before & after & Heq & Hid & Hno).
        destruct before as [|b before]; simplify_eq/=; try done.
        exists before, after. split_and!; [done | done |].
        intros other Hin. apply Hno. by right.
Qed.

Lemma requestLoop_spec catalog ids toDownload :
  requestLoop catalog ids toDownload =
  (enqueue toDownload (resolvedPrefix catalog ids),
   (λ packUUID, "could not find resource pack " +:+ packUUID) <$> firstMissing catalog ids).
Proof.
  revert toDownload. induction ids as [|packUUID rest IH]; intros toDownload; simpl; [done|].
  destruct (findPack catalog packUUID) as [pack|]; [|done].
  by rewrite IH.
Qed.

Lemma firstMissing_None catalog ids :
  firstMissing catalog ids = None ↔
  ∀ packUUID, packUUID ∈ ids → is_Some (findPack catalog packUUID).
Proof.
  induction ids as [|i rest IH]; simpl.
  - split; [|done]. intros _ x Hin. inversion Hin.
  - destruct (findPack catalog i) as [pack|] eqn:E.
    + rewrite IH. split.
      * intros H x Hin. apply elem_of_cons in Hin as [-> | Hin]; [by rewrite E | auto].
      * intros H x Hin. apply H. by right.
    + split; [done|]. intros H. destruct (H i) as [x Hx]; [left|]. congruence.
Qed.

Lemma firstMissing_Some catalog ids packUUID :
  firstMissing catalog ids = Some packUUID ↔
  ∃ before after, ids = before ++ packUUID :: after ∧
    findPack catalog packUUID = None ∧
    ∀ i, i ∈ before → is_Some (findPack catalog i).
Proof.
  induction ids as [|i rest IH]; simpl.
  - split; [done|]. intros (before & after & Heq & _). by destruct before.
  - destruct (findPack catalog i) as [pack|] eqn:E.
    + rewrite IH. split.
      * intros (before & after & -> & Hnone & Hall).
        exists (i :: before), after. split_and!; [done | done |].
        intros j Hin. apply elem_of_cons in Hin as [-> | Hin]; [by rewrite E | auto].
      * intros (before & after & Heq & Hnone & Hall).
        destruct before as [|b before]; simplify_eq/=.
        exists before, after. split_and!; [done | done |].
        intros j Hin. apply Hall. by right.
    + split.
      * intros [= <-]. exists [], rest. split_and!; [done | done |].
        intros j Hin. inversion Hin.
      * intros (before & after & Heq & Hnone & Hall).
        destruct before as [|b before]; simplify_eq/=; try done.
        destruct (Hall b) as [x Hx]; [left|]. congruence.
Qed.

Lemma resolvedPrefix_resolved catalog before :
  (∀ i, i ∈ before → is_Some (findPack catalog i)) →
  ∀ rest, resolvedPrefix catalog (before ++ rest) =
          resolvedPrefix catalog before ++ resolvedPrefix catalog rest.
Proof.
  induction before as [|i before IH]; intros Hall rest; simpl; [done|].
  destruct (Hall i) as [pack Hp]; [left|]. rewrite Hp. simpl. f_equal.
  apply IH. intros j Hin. apply Hall. by right.
Qed.

Lemma elem_of_resolvedPrefix catalog ids pack :
  pack ∈ resolvedPrefix catalog ids →
  ∃ packUUID, packUUID ∈ ids ∧ findPack catalog packUUID = Some pack.
Proof.
  induction ids as [|i rest IH]; simpl; [intros H; inversion H|].
  destruct (findPack catalog i) as [p|] eqn:E; [|intros H; inversion H].
  intros [-> | Hin]%elem_of_cons.
  - exists i. split; [left | done].
  - destruct (IH Hin) as (j & Hj & Hf). exists j. split; [by right | done].
Qed.

Lemma resolvedPrefix_complete catalog ids packUUID pack :
  firstMissing catalog ids = None →
  packUUID ∈ ids → findPack catalog packUUID = Some pack →
  pack ∈ resolvedPrefix catalog ids.
Proof.
  induction ids as [|i rest IH]; simpl; [intros _ H; inversion H|].
  destruct (findPack catalog i) as [p|] eqn:E; [|done].
  intros Hnone [-> | Hin]%elem_of_cons Hf.
  - rewrite E in Hf. injection Hf as ->. left.
  - right. by apply IH.
Qed.

(** Lookups in the map [enqueue] builds. *)
Lemma enqueue_lookup_Some toDownload resolved index pack :
  enqueue toDownload resolved !! index = Some pack →
  (pack ∈ resolved ∧ index = resource.UUID pack) ∨ toDownload !! index = Some pack.
Proof.
  unfold enqueue. revert toDownload.
  induction resolved as [|p rest IH]; intros toDownload; simpl; [by right|].
  intros H. destruct (IH _ H) as [[Hin ->] | Hm].
  - left. split; [by right | done].
  - destruct (decide (resource.UUID p = index)) as [<- | Hne].
    + rewrite lookup_insert_eq in Hm. injection Hm as ->. left. split; [left | done].
    + rewrite lookup_insert_ne in Hm by done. by right.
Qed.

Lemma enqueue_lookup_other toDownload resolved index :
  (∀ pack, pack ∈ resolved → resource.UUID pack ≠ index) →
  enqueue toDownload resolved !! index = toDownload !! index.
Proof.
  unfold enqueue. revert toDownload.
  induction resolved as [|p rest IH]; intros toDownload Hno; simpl; [done|].
  rewrite IH.
  - apply lookup_insert_ne. apply Hno. left.
  - intros pack Hin. apply Hno. by right.
Qed.

Lemma enqueue_lookup_unique toDownload resolved pack :
  pack ∈ resolved →
  (∀ other, other ∈ resolved → resource.UUID other = resource.UUID pack → other = pack) →
  enqueue toDownload resolved !! resource.UUID pack = Some pack.
Proof.
  revert toDownload.
  induction resolved as [|p rest IH]; intros toDownload Hin Huniq; [inversion Hin|].
  change (enqueue toDownload (p :: rest))
    with (enqueue (<[resource.UUID p := p]> toDownload) rest).
  destruct (decide (pack ∈ rest)) as [Hrest | Hrest].
  - apply IH; [done|]. intros other Ho. apply Huniq. by right.
  - apply elem_of_cons in Hin as [-> | Hin]; [|done].
    rewrite enqueue_lookup_other; [apply lookup_insert_eq|].
    intros other Ho Heq. apply Hrest.
    rewrite <- (Huniq other); [done | by right | done].
Qed.

Lemma resolvedPrefix_failure catalog before packUUID after :
  (∀ i, i ∈ before → is_Some (findPack catalog i)) →
  findPack catalog packUUID = None →
  resolvedPrefix catalog (before ++ packUUID :: after) = resolvedPrefix catalog before.
Proof.
  intros Hall Hnone. rewrite resolvedPrefix_resolved by done.
  simpl. rewrite Hnone. apply app_nil_r.
Qed.

Lemma Request_spec queue ids :
  Request queue ids =
  (set_packsToDownload queue (enqueue ∅ (resolvedPrefix (packs queue) ids)),
   (λ packUUID, "could not find resource pack " +:+ packUUID) <$> firstMissing (packs queue) ids).
Proof. unfold Request. by rewrite requestLoop_spec. Qed.

Lemma rangeFirst_valid : validRange rangeFirst.
Proof.
  intros m. unfold rangeFirst.
  destruct (map_to_list m) as [|[index pack] rest] eqn:E; simpl.
  - by apply map_to_list_empty_iff.
  - apply elem_of_map_to_list. rewrite E. left.
Qed.

Lemma validRange_empty range : validRange range → range ∅ = None.
Proof.
  intros Hvalid. specialize (Hvalid ∅).
  destruct (range ∅) as [[index pack]|]; [|done].
  by rewrite lookup_empty in Hvalid.
Qed.

Lemma validRange_nonempty range m :
  validRange range → m ≠ ∅ →
  ∃ index pack, range m = Some (index, pack) ∧ m !! index = Some pack.
Proof.
  intros Hvalid Hne. specialize (Hvalid m).
  destruct (range m) as [[index pack]|]; [eauto | done].
Qed.

(** The conversions are the identity on values that fit. *)
Lemma int32_small x : - 2 ^ 31 <= x < 2 ^ 31 → int32 x = x.
Proof.
  intros H. unfold int32.
  rewrite Z.mod_small; lia.
Qed.

Lemma int64_small x : is_int x → int64 x = x.
Proof.
  unfold is_int, int64. intros H.
  rewrite Z.mod_small; lia.
Qed.

(** On a pack of non-negative size and a positive chunk size,
    [DataChunkCount] is the least number of chunks that cover the pack. *)
Lemma DataChunkCount_ceiling pack length :
  0 < length → 0 <= resource.Len pack →
  (resource.DataChunkCount pack length - 1) * length < resource.Len pack
    <= resource.DataChunkCount pack length * length.
Proof.
  intros Hlen Hsize. unfold resource.DataChunkCount.
  rewrite Z.quot_div_nonneg, Z.rem_mod_nonneg by lia.
  pose proof (Z.div_mod (resource.Len pack) length ltac:(lia)) as Hdm.
  pose proof (Z.mod_pos_bound (resource.Len pack) length Hlen) as Hm.
  case_decide; nia.
Qed.

(** The scenario of the specification: the catalog offers A 1.0 and B 2.0
    and the peer requests A_1.0. *)
Example request_scenario :
  let A := resource.mkPack "A" "1.0" 300 "ca" in
  let B := resource.mkPack "B" "2.0" 10 "cb" in
  Request (newQueue [A; B]) ["A_1.0"]
    = (set_packsToDownload (newQueue [A; B]) {[ "A" := A ]}, None) ∧
  NextPack 128 rangeFirst (fst (Request (newQueue [A; B]) ["A_1.0"]))
    = (mkQueue [A; B] ∅ (Some A) 0 0 ∅ ∅,
       Some (packet.mkResourcePackDataInfo "A" 128 3 300 "ca"), true).
Proof. split; vm_compute; reflexivity. Qed.

(* ===================================================================== *)
(** ** Properties of Request *)

(** C7. [Request] resolves an identifier by exact string equality with the
    concatenation of the pack's UUID, an underscore and its version: the
    comparison of the inner loop holds if and only if the identifier is that
    composite; the pack found is the first offered pack whose composite is
    the identifier; and [Request] returns no error exactly when every
    identifier is the composite of an offered pack. *)
Theorem Request_matches_composite_identifier (queue : resourcePackQueue) (ids : list string) :
  (∀ pack packUUID,
     String.eqb (packIdentifier pack) packUUID = true ↔
     packUUID = resource.UUID pack +:+ "_" +:+ resource.Version pack) ∧
  (∀ packUUID pack,
     findPack (packs queue) packUUID = Some pack ↔
     ∃ before after, packs queue = before ++ pack :: after ∧
       packUUID = resource.UUID pack +:+ "_" +:+ resource.Version pack ∧
       ∀ other, other ∈ before →
         packUUID ≠ resource.UUID other +:+ "_" +:+ resource.Version other) ∧
  (snd (Request queue ids) = None ↔
     ∀ packUUID, packUUID ∈ ids →
       ∃ pack, pack ∈ packs queue ∧
         packUUID = resource.UUID pack +:+ "_" +:+ resource.Version pack).
Proof.
  split_and!.
  - intros pack packUUID. rewrite String.eqb_eq. unfold packIdentifier. split; congruence.
  - intros packUUID pack. rewrite findPack_first. unfold packIdentifier.
    split; intros (before & after & Heq & Hid & Hno); exists before, after;
      (split_and!; [done | done |]); intros other Hin Hother;
      apply (Hno other Hin); congruence.
  - rewrite Request_spec. simpl. rewrite fmap_None, firstMissing_None. split.
    + intros Hall packUUID Hin. destruct (Hall packUUID Hin) as [pack Hpack].
      apply findPack_Some in Hpack as [Hcat Hid]. exists pack. split; [done|].
      by rewrite <- Hid.
    + intros Hall packUUID Hin. destruct (Hall packUUID Hin) as (pack & Hcat & Hid).
      destruct (findPack (packs queue) packUUID) as [p|] eqn:E; [by eexists|].
      exfalso. rewrite findPack_None in E. apply (E pack Hcat). by rewrite Hid.
Qed.

(** C1, as the specification states it, fails: a request that names an
    offered pack before an unknown one returns the error and leaves the
    offered pack requested. *)
Lemma Request_failure_changes_state :
  let A := resource.mkPack "A" "1.0" 300 "ca" in
  let queue := newQueue [A] in
  let ids := ["A_1.0"; "C_1.0"] in
  findPack (packs queue) "C_1.0" = None ∧
  snd (Request queue ids) = Some "could not find resource pack C_1.0" ∧
  ¬ isRequested queue A ∧
  isRequested (fst (Request queue ids)) A ∧
  fst (Request queue ids) ≠ queue.
Proof.
  split_and!.
  - reflexivity.
  - reflexivity.
  - intros [index H]. simpl in H. by rewrite lookup_empty in H.
  - exists "A". reflexivity.
  - intros H. apply (f_equal (λ q, packsToDownload q !! "A")) in H.
    vm_compute in H. discriminate.
Qed.

(** C1, amended.  When some identifier does not resolve, [Request] returns
    an error naming the first such identifier; the catalog, the current pack,
    the current offset and the download records are unchanged; the set of
    packs to download is the one a request of the identifiers before the
    failing one leaves. *)
Theorem Request_failure_names_first_missing (queue : resourcePackQueue) (ids : list string) :
  (∃ packUUID, packUUID ∈ ids ∧ findPack (packs queue) packUUID = None) →
  ∃ before packUUID after,
    ids = before ++ packUUID :: after ∧
    (∀ i, i ∈ before → is_Some (findPack (packs queue) i)) ∧
    findPack (packs queue) packUUID = None ∧
    snd (Request queue ids) = Some ("could not find resource pack " +:+ packUUID) ∧
    packs (fst (Request queue ids)) = packs queue ∧
    currentPack (fst (Request queue ids)) = currentPack queue ∧
    currentOffset (fst (Request queue ids)) = currentOffset queue ∧
    packAmount (fst (Request queue ids)) = packAmount queue ∧
    downloadingPacks (fst (Request queue ids)) = downloadingPacks queue ∧
    awaitingPacks (fst (Request queue ids)) = awaitingPacks queue ∧
    snd (Request queue before) = None ∧
    packsToDownload (fst (Request queue ids)) = packsToDownload (fst (Request queue before)).
Proof.
  intros (missing & Hin & Hmissing).
  destruct (firstMissing (packs queue) ids) as [packUUID|] eqn:E.
  - pose proof E as E'.
    apply firstMissing_Some in E' as (before & after & -> & Hnone & Hall).
    exists before, packUUID, after. rewrite !Request_spec. simpl.
    rewrite E, resolvedPrefix_failure by done.
    split_and!; try done.
    rewrite fmap_None. by apply firstMissing_None.
  - rewrite firstMissing_None in E. destruct (E missing Hin) as [pack Hpack]. congruence.
Qed.

Lemma Request_failure_names_first_missing_witness :
  let A := resource.mkPack "A" "1.0" 300 "ca" in
  let queue := newQueue [A] in
  let ids := ["A_1.0"; "C_1.0"; "A_1.0"] in
  (∃ packUUID, packUUID ∈ ids ∧ findPack (packs queue) packUUID = None) ∧
  ∃ before packUUID after,
    ids = before ++ packUUID :: after ∧
    (∀ i, i ∈ before → is_Some (findPack (packs queue) i)) ∧
    findPack (packs queue) packUUID = None ∧
    snd (Request queue ids) = Some ("could not find resource pack " +:+ packUUID) ∧
    packs (fst (Request queue ids)) = packs queue ∧
    currentPack (fst (Request queue ids)) = currentPack queue ∧
    currentOffset (fst (Request queue ids)) = currentOffset queue ∧
    packAmount (fst (Request queue ids)) = packAmount queue ∧
    downloadingPacks (fst (Request queue ids)) = downloadingPacks queue ∧
    awaitingPacks (fst (Request queue ids)) = awaitingPacks queue ∧
    snd (Request queue before) = None ∧
    packsToDownload (fst (Request queue ids)) = packsToDownload (fst (Request queue before)).
Proof.
  assert (∃ packUUID, packUUID ∈ ["A_1.0"; "C_1.0"; "A_1.0"] ∧
            findPack (packs (newQueue [resource.mkPack "A" "1.0" 300 "ca"])) packUUID = None)
    as Hmissing.
  { exists "C_1.0". split; [|reflexivity].
    apply elem_of_cons. right. apply elem_of_cons. left. reflexivity. }
  split; [exact Hmissing|].
  exact (Request_failure_names_first_missing
           (newQueue [resource.mkPack "A" "1.0" 300 "ca"]) ["A_1.0"; "C_1.0"; "A_1.0"]
           Hmissing).
Defined.

(** C3, as the specification states it, fails: two offered packs share a
    UUID and differ in version, both are requested, the request succeeds, and
    the first of them is not in the set of packs to download. *)
Lemma Request_shared_UUID_drops_pack :
  let A1 := resource.mkPack "A" "1.0" 300 "c1" in
  let A2 := resource.mkPack "A" "2.0" 200 "c2" in
  let queue := newQueue [A1; A2] in
  let ids := ["A_1.0"; "A_2.0"] in
  findPack (packs queue) "A_1.0" = Some A1 ∧
  findPack (packs queue) "A_2.0" = Some A2 ∧
  snd (Request queue ids) = None ∧
  packsToDownload (fst (Request queue ids)) = {[ "A" := A2 ]} ∧
  ¬ isRequested (fst (Request queue ids)) A1.
Proof.
  split_and!; try reflexivity.
  intros [index H]. simpl in H.
  destruct (decide (index = "A")) as [-> | Hne].
  - vm_compute in H. discriminate.
  - rewrite lookup_insert_ne, lookup_insert_ne, lookup_empty in H by done. discriminate.
Qed.

(** C3, amended.  When every requested identifier resolves and no two of
    the resolved packs share a UUID, [Request] returns no error and each
    resolved pack is in the set of packs to download exactly once, under its
    UUID; the set holds nothing else. *)
Theorem Request_success_enqueues_each_once (queue : resourcePackQueue) (ids : list string) :
  (∀ packUUID, packUUID ∈ ids → is_Some (findPack (packs queue) packUUID)) →
  (∀ i j p q, i ∈ ids → j ∈ ids →
     findPack (packs queue) i = Some p → findPack (packs queue) j = Some q →
     resource.UUID p = resource.UUID q → p = q) →
  snd (Request queue ids) = None ∧
  (∀ packUUID, packUUID ∈ ids →
     ∃ pack, findPack (packs queue) packUUID = Some pack ∧
       ∀ index, packsToDownload (fst (Request queue ids)) !! index = Some pack ↔
                index = resource.UUID pack) ∧
  (∀ index pack, packsToDownload (fst (Request queue ids)) !! index = Some pack →
     ∃ packUUID, packUUID ∈ ids ∧ findPack (packs queue) packUUID = Some pack).
Proof.
  intros Hall Hdistinct. rewrite Request_spec. simpl.
  pose proof (proj2 (firstMissing_None (packs queue) ids) Hall) as Hnone.
  split_and!.
  - by rewrite Hnone.
  - intros packUUID Hin. destruct (Hall packUUID Hin) as [pack Hpack].
    exists pack. split; [done|]. intros index. split.
    + intros H. apply enqueue_lookup_Some in H as [[_ ->] | H]; [done|].
      by rewrite lookup_empty in H.
    + intros ->. apply enqueue_lookup_unique.
      * by apply (resolvedPrefix_complete _ _ packUUID).
      * intros other Hother Huuid.
        apply elem_of_resolvedPrefix in Hother as (j & Hj & Hfj).
        by apply (Hdistinct j packUUID other pack).
  - intros index pack H. apply enqueue_lookup_Some in H as [[H _] | H].
    + by apply elem_of_resolvedPrefix.
    + by rewrite lookup_empty in H.
Qed.

Lemma Request_success_enqueues_each_once_witness :
  let A := resource.mkPack "A" "1.0" 300 "ca" in
  let B := resource.mkPack "B" "2.0" 10 "cb" in
  let queue := newQueue [A; B] in
  let ids := ["B_2.0"; "A_1.0"; "B_2.0"] in
  (∀ packUUID, packUUID ∈ ids → is_Some (findPack (packs queue) packUUID)) ∧
  (∀ i j p q, i ∈ ids → j ∈ ids →
     findPack (packs queue) i = Some p → findPack (packs queue) j = Some q →
     resource.UUID p = resource.UUID q → p = q) ∧
  snd (Request queue ids) = None ∧
  (∀ packUUID, packUUID ∈ ids →
     ∃ pack, findPack (packs queue) packUUID = Some pack ∧
       ∀ index, packsToDownload (fst (Request queue ids)) !! index = Some pack ↔
                index = resource.UUID pack) ∧
  (∀ index pack, packsToDownload (fst (Request queue ids)) !! index = Some pack →
     ∃ packUUID, packUUID ∈ ids ∧ findPack (packs queue) packUUID = Some pack).
Proof.
  set (A := resource.mkPack "A" "1.0" 300 "ca").
  set (B := resource.mkPack "B" "2.0" 10 "cb").
  assert (∀ packUUID, packUUID ∈ ["B_2.0"; "A_1.0"; "B_2.0"] →
            is_Some (findPack (packs (newQueue [A; B])) packUUID)) as Hall.
  { intros packUUID Hin.
    repeat (apply elem_of_cons in Hin as [-> | Hin]; [by eexists|]).
    inversion Hin. }
  assert (∀ i j p q, i ∈ ["B_2.0"; "A_1.0"; "B_2.0"] → j ∈ ["B_2.0"; "A_1.0"; "B_2.0"] →
            findPack (packs (newQueue [A; B])) i = Some p →
            findPack (packs (newQueue [A; B])) j = Some q →
            resource.UUID p = resource.UUID q → p = q) as Hdistinct.
  { intros i j p q Hi Hj.
    repeat (apply elem_of_cons in Hi as [-> | Hi]);
      repeat (apply elem_of_cons in Hj as [-> | Hj]);
      try (inversion Hi; fail); try (inversion Hj; fail);
      intros [= <-] [= <-]; simpl; congruence. }
  split; [exact Hall|]. split; [exact Hdistinct|].
  exact (Request_success_enqueues_each_once (newQueue [A; B])
           ["B_2.0"; "A_1.0"; "B_2.0"] Hall Hdistinct).
Defined.

(** C9, as stated, fails: the request below stops with an error at its
    third identifier; both packs named before it were resolved, and the set
    of packs to download holds only the second of them. *)
Lemma Request_set_misses_resolved_pack :
  let A1 := resource.mkPack "A" "1.0" 300 "c1" in
  let A2 := resource.mkPack "A" "2.0" 200 "c2" in
  let queue := newQueue [A1; A2] in
  let ids := ["A_1.0"; "A_2.0"; "C_1.0"; "A_1.0"] in
  snd (Request queue ids) = Some "could not find resource pack C_1.0" ∧
  resolvedPrefix (packs queue) ids = [A1; A2] ∧
  A1 ∈ resolvedPrefix (packs queue) ids ∧
  ¬ isRequested (fst (Request queue ids)) A1.
Proof.
  split_and!; try reflexivity.
  - left.
  - intros [index H]. simpl in H.
    destruct (decide (index = "A")) as [-> | Hne].
    + vm_compute in H. discriminate.
    + rewrite lookup_insert_ne, lookup_insert_ne, lookup_empty in H by done. discriminate.
Qed.

(** C9, amended.  Every call to [Request], whether it succeeds or returns
    an error, starts from a fresh empty set: what an earlier call enqueued
    has no part in the result.  After the call the set holds only packs
    resolved from the identifiers processed before the call returned, each
    under its UUID, and it holds every such pack whose UUID no other pack
    resolved from them shares. *)
Theorem Request_rebuilds_packsToDownload (queue : resourcePackQueue) (ids : list string) :
  (∀ earlier, Request (set_packsToDownload queue earlier) ids = Request queue ids) ∧
  Request queue [] = (set_packsToDownload queue ∅, None) ∧
  packsToDownload (fst (Request queue ids)) = enqueue ∅ (resolvedPrefix (packs queue) ids) ∧
  (∀ index pack,
     packsToDownload (fst (Request queue ids)) !! index = Some pack →
     pack ∈ resolvedPrefix (packs queue) ids ∧ index = resource.UUID pack) ∧
  (∀ pack,
     pack ∈ resolvedPrefix (packs queue) ids →
     (∀ other, other ∈ resolvedPrefix (packs queue) ids →
        resource.UUID other = resource.UUID pack → other = pack) →
     packsToDownload (fst (Request queue ids)) !! resource.UUID pack = Some pack).
Proof.
  split_and!.
  - intros earlier. by rewrite !Request_spec.
  - reflexivity.
  - by rewrite Request_spec.
  - intros index pack. rewrite Request_spec. simpl. intros H.
    apply enqueue_lookup_Some in H as [H | H]; [done|].
    by rewrite lookup_empty in H.
  - intros pack Hin Huniq. rewrite Request_spec. simpl.
    by apply enqueue_lookup_unique.
Qed.

(* ===================================================================== *)
(** ** Properties of AllDownloaded and NextPack *)

Lemma AllDownloaded_true queue :
  AllDownloaded queue = true ↔ packsToDownload queue = ∅.
Proof.
  unfold AllDownloaded. rewrite bool_decide_eq_true. apply map_size_empty_iff.
Qed.

(** C2, as the specification states it, fails: after the only requested
    pack has been handed out by [NextPack] it is the current pack at offset
    0 of 300 bytes, and [AllDownloaded] returns true. *)
Lemma AllDownloaded_true_while_downloading :
  let A := resource.mkPack "A" "1.0" 300 "ca" in
  let requested := fst (Request (newQueue [A]) ["A_1.0"]) in
  let queue := fst (fst (NextPack 100 rangeFirst requested)) in
  AllDownloaded requested = false ∧
  snd (NextPack 100 rangeFirst requested) = true ∧
  currentPack queue = Some A ∧
  currentOffset queue = 0 ∧
  isDownloading queue A ∧
  AllDownloaded queue = true.
Proof.
  split_and!; try reflexivity.
  split; [reflexivity|]. vm_compute. reflexivity.
Qed.

(** C2, amended.  [AllDownloaded] returns true exactly when no pack remains
    in the Requested state, that is, when the set of packs to download is
    empty, and false while a requested pack has not been handed out by
    [NextPack]; the pack [NextPack] has made current is not counted, so once
    [NextPack] has handed out the last requested pack the answer is true. *)
Theorem AllDownloaded_iff_none_requested (queue : resourcePackQueue) :
  (AllDownloaded queue = true ↔ ∀ pack, ¬ isRequested queue pack) ∧
  (AllDownloaded queue = false ↔ ∃ pack, isRequested queue pack) ∧
  (∀ packChunkSize range,
     validRange range → size (packsToDownload queue) = 1%nat →
     AllDownloaded (fst (fst (NextPack packChunkSize range queue))) = true).
Proof.
  assert (AllDownloaded queue = true ↔ ∀ pack, ¬ isRequested queue pack) as Htrue.
  { rewrite AllDownloaded_true. unfold isRequested. split.
    - intros -> pack [index H]. by rewrite lookup_empty in H.
    - intros H. apply map_empty. intros index.
      destruct (packsToDownload queue !! index) as [pack|] eqn:E; [|done].
      exfalso. apply (H pack). by exists index. }
  split_and!; [exact Htrue | |].
  - split.
    + intros Hfalse.
      destruct (decide (packsToDownload queue = ∅)) as [Hempty | Hne].
      * apply AllDownloaded_true in Hempty. congruence.
      * apply map_choose in Hne as (index & pack & H). exists pack. by exists index.
    + intros [pack Hreq]. apply not_true_iff_false. intros E.
      exact (proj1 Htrue E pack Hreq).
  - intros packChunkSize range Hvalid Hsize.
    assert (packsToDownload queue ≠ ∅) as Hne.
    { intros Hempty. rewrite Hempty, map_size_empty in Hsize. done. }
    destruct (validRange_nonempty range _ Hvalid Hne) as (index & pack & Hrange & Hlookup).
    unfold NextPack. rewrite Hrange. simpl.
    apply AllDownloaded_true. simpl. apply map_size_empty_iff.
    rewrite map_size_delete, Hlookup, Hsize. done.
Qed.

(** C6, as the specification states it, fails.  The packet names the pack
    by its bare UUID, not by the identifier a request names it by, the UUID
    and the version joined; and the chunk count goes through [int32(...)],
    so that the count 2^31 of a pack of 2^31 chunks is sent as - 2^31. *)
Lemma NextPack_packet_not_as_stated :
  let A := resource.mkPack "A" "1.0" 300 "ca" in
  let huge := resource.mkPack "H" "1.0" (2 ^ 31 * 128) "ch" in
  (∃ queue' pk,
     NextPack 128 rangeFirst (fst (Request (newQueue [A]) ["A_1.0"]))
       = (queue', Some pk, true) ∧
     currentPack queue' = Some A ∧
     packIdentifier A = "A_1.0" ∧
     packet.UUID pk = "A" ∧
     packet.UUID pk ≠ packIdentifier A) ∧
  (∃ queue' pk,
     NextPack 128 rangeFirst (fst (Request (newQueue [huge]) ["H_1.0"]))
       = (queue', Some pk, true) ∧
     currentPack queue' = Some huge ∧
     (resource.Len huge + 128 - 1) / 128 = 2 ^ 31 ∧
     packet.ChunkCount pk = - 2 ^ 31 ∧
     packet.ChunkCount pk ≠ (resource.Len huge + 128 - 1) / 128).
Proof.
  split.
  - eexists _, _. split; [vm_compute; reflexivity|]. by split_and!.
  - eexists _, _. split; [vm_compute; reflexivity|]. by split_and!.
Qed.

(** C6, amended.  With a requested pack left, [NextPack] takes one entry out
    of the set of packs to download, makes its pack the current pack at
    offset 0 and returns ok = true with a packet that carries the pack's bare
    UUID, the chunk size, the chunk count cut to 32 bits, the size and the
    checksum.  For a positive chunk size and a pack of non-negative size the
    count is the ceiling of size over chunk size, the least count whose
    chunks cover the pack; the packet carries that ceiling when it is below
    2^31, and the ceiling less 2^32 when it is from 2^31 up to 2^32 - 1.  The
    size is carried as it is when it is a Go int.  With none left [NextPack]
    returns (nil, false). *)
Theorem NextPack_hands_out_one_pack
    (packChunkSize : Z) (range : rangeChoice) (queue : resourcePackQueue) :
  validRange range →
  (packsToDownload queue ≠ ∅ →
     ∃ index pack queue' pk,
       NextPack packChunkSize range queue = (queue', Some pk, true) ∧
       packsToDownload queue !! index = Some pack ∧
       packsToDownload queue' = delete index (packsToDownload queue) ∧
       S (size (packsToDownload queue')) = size (packsToDownload queue) ∧
       currentPack queue' = Some pack ∧
       currentOffset queue' = 0 ∧
       packet.UUID pk = resource.UUID pack ∧
       packet.DataChunkSize pk = packChunkSize ∧
       packet.ChunkCount pk = int32 (resource.DataChunkCount pack packChunkSize) ∧
       (0 < packChunkSize → 0 <= resource.Len pack →
          let ceiling := (resource.Len pack + packChunkSize - 1) / packChunkSize in
          resource.DataChunkCount pack packChunkSize = ceiling ∧
          (ceiling - 1) * packChunkSize < resource.Len pack <= ceiling * packChunkSize ∧
          (ceiling < 2 ^ 31 → packet.ChunkCount pk = ceiling) ∧
          (2 ^ 31 <= ceiling < 2 ^ 32 → packet.ChunkCount pk = ceiling - 2 ^ 32)) ∧
       packet.Size pk = int64 (resource.Len pack) ∧
       (is_int (resource.Len pack) → packet.Size pk = resource.Len pack) ∧
       packet.Hash pk = resource.Checksum pack) ∧
  (packsToDownload queue = ∅ →
     snd (fst (NextPack packChunkSize range queue)) = None ∧
     snd (NextPack packChunkSize range queue) = false).
Proof.
  intros Hvalid. split.
  - intros Hne.
    destruct (validRange_nonempty range _ Hvalid Hne) as (index & pack & Hrange & Hlookup).
    unfold NextPack. rewrite Hrange.
    eexists index, pack, _, _. split; [reflexivity|]. simpl.
    split_and!; try done.
    + rewrite map_size_delete, Hlookup.
      assert (size (packsToDownload queue) ≠ 0%nat); [|lia].
      intros H0. by apply map_size_empty_iff in H0.
    + intros Hpos Hsize.
      pose proof (DataChunkCount_ceiling pack packChunkSize Hpos Hsize) as Hceil.
      assert (resource.DataChunkCount pack packChunkSize
              = (resource.Len pack + packChunkSize - 1) / packChunkSize) as Hcount.
      { apply Z.div_unique with
          (r := resource.Len pack + packChunkSize - 1
                - packChunkSize * resource.DataChunkCount pack packChunkSize); [left|]; lia. }
      cbn zeta. rewrite <- Hcount. split_and!; [done | lia | lia | |].
      * intros Hfits. apply int32_small. nia.
      * intros Hbig. unfold int32.
        replace (resource.DataChunkCount pack packChunkSize + 2 ^ 31)
          with ((resource.DataChunkCount pack packChunkSize - 2 ^ 31) + 1 * 2 ^ 32) by lia.
        rewrite Z.mod_add by lia. rewrite Z.mod_small by lia. lia.
    + apply int64_small.
  - intros Hempty. unfold NextPack.
    by rewrite Hempty, (validRange_empty range Hvalid).
Qed.

Lemma NextPack_hands_out_one_pack_witness :
  let A := resource.mkPack "A" "1.0" 300 "ca" in
  let B := resource.mkPack "B" "2.0" 10 "cb" in
  let queue := fst (Request (newQueue [A; B]) ["A_1.0"; "B_2.0"]) in
  validRange rangeFirst ∧
  packsToDownload queue ≠ ∅ ∧
  NextPack 128 rangeFirst queue =
    (mkQueue [A; B] {[ "B" := B ]} (Some A) 0 0 ∅ ∅,
     Some (packet.mkResourcePackDataInfo "A" 128 3 300 "ca"), true) ∧
  (0 < 128 ∧ 0 <= resource.Len A ∧ is_int (resource.Len A) ∧
   (resource.Len A + 128 - 1) / 128 = 3) ∧
  (packsToDownload queue ≠ ∅ →
     ∃ index pack queue' pk,
       NextPack 128 rangeFirst queue = (queue', Some pk, true) ∧
       packsToDownload queue !! index = Some pack ∧
       packsToDownload queue' = delete index (packsToDownload queue) ∧
       S (size (packsToDownload queue')) = size (packsToDownload queue) ∧
       currentPack queue' = Some pack ∧
       currentOffset queue' = 0 ∧
       packet.UUID pk = resource.UUID pack ∧
       packet.DataChunkSize pk = 128 ∧
       packet.ChunkCount pk = int32 (resource.DataChunkCount pack 128) ∧
       (0 < 128 → 0 <= resource.Len pack →
          let ceiling := (resource.Len pack + 128 - 1) / 128 in
          resource.DataChunkCount pack 128 = ceiling ∧
          (ceiling - 1) * 128 < resource.Len pack <= ceiling * 128 ∧
          (ceiling < 2 ^ 31 → packet.ChunkCount pk = ceiling) ∧
          (2 ^ 31 <= ceiling < 2 ^ 32 → packet.ChunkCount pk = ceiling - 2 ^ 32)) ∧
       packet.Size pk = int64 (resource.Len pack) ∧
       (is_int (resource.Len pack) → packet.Size pk = resource.Len pack) ∧
       packet.Hash pk = resource.Checksum pack) ∧
  (packsToDownload queue = ∅ →
     snd (fst (NextPack 128 rangeFirst queue)) = None ∧
     snd (NextPack 128 rangeFirst queue) = false).
Proof.
  split; [exact rangeFirst_valid|].
  split.
  { intros H. apply (f_equal (λ m, m !! "A")) in H. vm_compute in H. discriminate. }
  split; [vm_compute; reflexivity|].
  split.
  { unfold is_int. simpl. split_and!; try lia. reflexivity. }
  exact (NextPack_hands_out_one_pack 128 rangeFirst
           (fst (Request (newQueue [resource.mkPack "A" "1.0" 300 "ca";
                                    resource.mkPack "B" "2.0" 10 "cb"])
                   ["A_1.0"; "B_2.0"]))
           rangeFirst_valid).
Defined.

(** C10.  With no requested pack left, [NextPack] returns (nil, false) and
    the queue it leaves is the queue it was given: every field, the current
    pack and the current offset among them, keeps its value. *)
Theorem NextPack_empty_leaves_queue
    (packChunkSize : Z) (range : rangeChoice) (queue : resourcePackQueue) :
  validRange range →
  packsToDownload queue = ∅ →
  NextPack packChunkSize range queue = (queue, None, false) ∧
  currentPack (fst (fst (NextPack packChunkSize range queue))) = currentPack queue ∧
  currentOffset (fst (fst (NextPack packChunkSize range queue))) = currentOffset queue.
Proof.
  intros Hvalid Hempty.
  assert (NextPack packChunkSize range queue = (queue, None, false)) as H.
  { unfold NextPack. by rewrite Hempty, (validRange_empty range Hvalid). }
  by rewrite H.
Qed.

Lemma NextPack_empty_leaves_queue_witness :
  let A := resource.mkPack "A" "1.0" 300 "ca" in
  let queue := mkQueue [A] ∅ (Some A) 256 0 ∅ ∅ in
  validRange rangeFirst ∧
  packsToDownload queue = ∅ ∧
  NextPack 128 rangeFirst queue = (queue, None, false) ∧
  currentPack (fst (fst (NextPack 128 rangeFirst queue))) = Some A ∧
  currentOffset (fst (fst (NextPack 128 rangeFirst queue))) = 256.
Proof.
  split; [exact rangeFirst_valid|].
  split; [reflexivity|].
  exact (NextPack_empty_leaves_queue 128 rangeFirst
           (mkQueue [resource.mkPack "A" "1.0" 300 "ca"] ∅
                    (Some (resource.mkPack "A" "1.0" 300 "ca")) 256 0 ∅ ∅)
           rangeFirst_valid eq_refl).
Defined.

(* ===================================================================== *)
(** ** The course of a dial *)

Lemma IO_bind_eq {A B : Type} (m : IO A) (k : A → IO B) :
  m ≫= k = (fst m ++ fst (k (snd m)), snd (k (snd m))).
Proof.
  unfold mbind, IO_bind. destruct m as [done a]. simpl. by destruct (k a).
Qed.

(** The transport dial is one action, the dial of the network. *)
Lemma dialTransport_eq w network address :
  dialTransport w network address =
  ([if String.eqb network "raknet"
    then RaknetDial address (raknet_Dial w address)
    else NetDial network address (net_Dial w network address)],
   if String.eqb network "raknet" then raknet_Dial w address
   else net_Dial w network address).
Proof. unfold dialTransport, perform. by destruct (String.eqb network "raknet"). Qed.

(** The four ways through [authChain]. *)
Lemma authChain_eq w email password key :
  authChain w email password key =
  match auth_RequestLiveToken w email password with
  | inr err =>
      ([RequestLiveToken email password (inr err)],
       ("", Some (stageError LiveToken +:+ err)))
  | inl liveToken =>
      match auth_RequestXSTSToken w liveToken with
      | inr err =>
          ([RequestLiveToken email password (inl liveToken);
            RequestXSTSToken liveToken (inr err)],
           ("", Some (stageError XSTSToken +:+ err)))
      | inl xsts =>
          match auth_RequestMinecraftChain w xsts key with
          | inr err =>
              ([RequestLiveToken email password (inl liveToken);
                RequestXSTSToken liveToken (inl xsts);
                RequestMinecraftChain xsts key (inr err)],
               ("", Some (stageError MinecraftChain +:+ err)))
          | inl chain =>
              ([RequestLiveToken email password (inl liveToken);
                RequestXSTSToken liveToken (inl xsts);
                RequestMinecraftChain xsts key (inl chain)],
               (chain, None))
          end
      end
  end.
Proof.
  unfold authChain, perform, mbind, mret, IO_bind, IO_ret.
  destruct (auth_RequestLiveToken w email password) as [liveToken|err]; [|done].
  destruct (auth_RequestXSTSToken w liveToken) as [xsts|err]; [|done].
  by destruct (auth_RequestMinecraftChain w xsts key).
Qed.

Lemma authChain_actions w email password key e :
  e ∈ fst (authChain w email password key) → isAuthAction e = true.
Proof.
  rewrite authChain_eq. repeat case_match; simpl; intros Hin; elem_cases Hin; by subst.
Qed.

Lemma authChain_failed w email password key err :
  snd (snd (authChain w email password key)) = Some err →
  ∃ s e, err = stageError s +:+ e ∧
    stageFailed (fst (authChain w email password key)) s e ∧
    ∀ s' e', stageFailed (fst (authChain w email password key)) s' e' → s' = s ∧ e' = e.
Proof.
  rewrite authChain_eq. repeat case_match; simpl; intros [= <-].
  - exists MinecraftChain. eexists. split_and!; [done | |].
    + do 2 eexists. do 2 right. left.
    + intros [] e' Hin; simpl in Hin; repeat (destruct Hin as [? Hin]);
        elem_cases Hin; by simplify_eq.
  - exists XSTSToken. eexists. split_and!; [done | |].
    + eexists. right. left.
    + intros [] e' Hin; simpl in Hin; repeat (destruct Hin as [? Hin]);
        elem_cases Hin; by simplify_eq.
  - exists LiveToken. eexists. split_and!; [done | |].
    + do 2 eexists. left.
    + intros [] e' Hin; simpl in Hin; repeat (destruct Hin as [? Hin]);
        elem_cases Hin; by simplify_eq.
Qed.

Lemma authChain_succeeded w email password key s e :
  snd (snd (authChain w email password key)) = None →
  ¬ stageFailed (fst (authChain w email password key)) s e.
Proof.
  rewrite authChain_eq. repeat case_match; simpl; try done.
  intros _ Hin. destruct s; simpl in Hin; repeat (destruct Hin as [? Hin]); elem_cases Hin.
Qed.

Lemma stageFailed_isAuthAction actions s e :
  stageFailed actions s e → ∃ a, a ∈ actions ∧ isAuthAction a = true.
Proof.
  destruct s; simpl; intros H; repeat (destruct H as [? H]); eexists; (split; [exact H | done]).
Qed.

Lemma stageFailed_app actions more s e :
  stageFailed (actions ++ more) s e ↔ stageFailed actions s e ∨ stageFailed more s e.
Proof.
  destruct s; simpl; split.
  all: try (intros Hin; repeat (destruct Hin as [? Hin]);
            apply elem_of_app in Hin as [Hin | Hin]; [left | right]; eauto).
  all: intros [Hin | Hin]; repeat (destruct Hin as [? Hin]);
       repeat eexists; apply elem_of_app; eauto.
Qed.

Lemma stageFailed_cons a actions s e :
  isAuthAction a = false → stageFailed (a :: actions) s e ↔ stageFailed actions s e.
Proof.
  intros Ha. destruct s; simpl; split.
  all: try (intros Hin; repeat (destruct Hin as [? Hin]);
            apply elem_of_cons in Hin as [<- | Hin]; [discriminate Ha | eauto]).
  all: intros Hin; repeat (destruct Hin as [? Hin]);
       repeat eexists; apply elem_of_cons; eauto.
Qed.

Lemma stageFailed_none actions s e :
  (∀ a, a ∈ actions → isAuthAction a = false) → ¬ stageFailed actions s e.
Proof.
  intros Hnone H. apply stageFailed_isAuthAction in H as (a & Hin & Ha).
  rewrite (Hnone a Hin) in Ha. discriminate.
Qed.

(** The actions and the outcome of a dial, path by path. *)
Lemma Dial_eq w dialer network address :
  Dial w dialer network address =
  let transport := dialTransport w network address in
  match snd transport with
  | inr err => (fst transport, Returned None (Some err))
  | inl netConn =>
      let key := ecdsa_GenerateKey w in
      let auth := dialAuth w dialer key in
      match snd (snd auth) with
      | Some err =>
          (fst transport ++ GenerateKey key :: fst auth, Returned None (Some err))
      | None =>
          let c := dialConn w dialer address netConn key in
          let pk := loginPacket w (fst (snd auth)) c key in
          let written := conn_WritePacket w c pk in
          (fst transport ++ GenerateKey key :: fst auth ++
             GoListenConn c (dialErrorLog dialer) :: WritePacket c pk written ::
             fst (afterLogin w c written),
           snd (afterLogin w c written))
      end
  end.
Proof.
  unfold Dial, afterLogin, perform, emit, mbind, mret, IO_bind, IO_ret.
  destruct (dialTransport w network address) as [t [netConn|err]]; cbn [fst snd app];
    [|by rewrite app_nil_r].
  destruct (dialAuth w dialer _) as [actions [chainData [err|]]]; cbn [fst snd app];
    [by rewrite app_nil_r|].
  destruct (conn_WritePacket w _ _) as [err|]; cbn [fst snd app]; [done|].
  by destruct (awaitSignal w _).
Qed.

Lemma dialAuth_actions w dialer key a :
  a ∈ fst (dialAuth w dialer key) → isAuthAction a = true.
Proof.
  unfold dialAuth. destruct (negb _).
  - apply authChain_actions.
  - intros Hin. by apply elem_of_nil in Hin.
Qed.

Lemma dialAuth_failed w dialer key err :
  snd (snd (dialAuth w dialer key)) = Some err →
  ∃ s e, err = stageError s +:+ e ∧
    ∀ s' e', stageFailed (fst (dialAuth w dialer key)) s' e' → s' = s ∧ e' = e.
Proof.
  unfold dialAuth. destruct (negb _); [|done].
  intros H. apply authChain_failed in H as (s & e & -> & _ & Honly). eauto.
Qed.

Lemma dialAuth_succeeded w dialer key s e :
  snd (snd (dialAuth w dialer key)) = None →
  ¬ stageFailed (fst (dialAuth w dialer key)) s e.
Proof.
  unfold dialAuth. destruct (negb _).
  - apply authChain_succeeded.
  - intros _. apply stageFailed_none. intros a Hin. by apply elem_of_nil in Hin.
Qed.

Lemma dialTransport_actions w network address a :
  a ∈ fst (dialTransport w network address) →
  isAuthAction a = false ∧ isWrite a = false ∧ isGoListenConn a = false.
Proof.
  rewrite dialTransport_eq. simpl. intros Hin. apply list_elem_of_singleton in Hin as ->.
  by destruct (String.eqb network "raknet").
Qed.

Lemma afterLogin_actions w c written a :
  a ∈ fst (afterLogin w c written) →
  isAuthAction a = false ∧ isWrite a = false ∧ isGoListenConn a = false.
Proof.
  unfold afterLogin, awaitSignal, emit, mbind, mret, IO_bind, IO_ret.
  destruct written as [err|]; [intros Hin; by apply elem_of_nil in Hin|].
  destruct (selectCase w) as [[]|]; simpl; intros Hin; elem_cases Hin; by subst.
Qed.

Lemma signals_all_absent (l : list Signal) :
  connected ∉ l → close ∉ l → l = [].
Proof.
  destruct l as [|[] l]; [done| |].
  - intros Hconnected _. destruct Hconnected. left.
  - intros _ Hclose. destruct Hclose. left.
Qed.

Lemma take_nil_drop {A} (n : nat) (l : list A) : take n l = [] → drop n l = l.
Proof. by destruct n, l. Qed.

Lemma selectCase_eq w :
  selectCase w =
    if decide (connected ∈ readySignals w)
    then if decide (close ∈ readySignals w) then Some (selectPick w) else Some connected
    else if decide (close ∈ readySignals w) then Some close else head (signals w).
Proof.
  unfold selectCase.
  destruct (decide (connected ∈ readySignals w)) as [Hconnected|Hconnected],
           (decide (close ∈ readySignals w)) as [Hclose|Hclose].
  - by rewrite !bool_decide_eq_true_2.
  - by rewrite bool_decide_eq_true_2, bool_decide_eq_false_2.
  - by rewrite bool_decide_eq_false_2, bool_decide_eq_true_2.
  - rewrite !bool_decide_eq_false_2 by done.
    by rewrite take_nil_drop by by apply signals_all_absent.
Qed.

Lemma selectCase_None w : selectCase w = None ↔ signals w = [].
Proof.
  rewrite selectCase_eq. split.
  - repeat case_decide; try done. by destruct (signals w).
  - intros Hsignals. unfold readySignals. rewrite Hsignals, take_nil.
    rewrite !decide_False by apply not_elem_of_nil. done.
Qed.

Lemma afterLogin_selected w c :
  afterLogin w c None =
    match selectCase w with
    | None => ([], Blocked)
    | Some connected => ([Receive connected], Returned (Some c) None)
    | Some close =>
        ([Receive close; SendClose], Returned None (Some "connection timeout"))
    end.
Proof. unfold afterLogin, awaitSignal. by destruct (selectCase w) as [[]|]. Qed.


Lemma packetSent_isWrite actions :
  packetSent actions ↔ ∃ a, a ∈ actions ∧ isWrite a = true.
Proof.
  unfold packetSent. split.
  - intros (c & pk & answer & Hin). eexists. split; [exact Hin | done].
  - intros ([] & Hin & Ha); try discriminate Ha. eauto.
Qed.

(** Where a list holds a single element of a kind, a split of the list at
    an element of that kind is the split at that element. *)
Lemma split_at_only {A : Type} (P : A → bool) (l1 : list A) x l2 before y after :
  l1 ++ x :: l2 = before ++ y :: after →
  P y = true →
  (∀ a, a ∈ l1 → P a = false) → (∀ a, a ∈ l2 → P a = false) →
  before = l1 ∧ y = x ∧ after = l2.
Proof.
  revert before. induction l1 as [|a l1 IH]; intros before Heq Hy H1 H2.
  - destruct before as [|b before]; simplify_eq/=; [done|].
    rewrite (H2 y) in Hy; [done|]. apply elem_of_app. right. left.
  - destruct before as [|b before]; simplify_eq/=.
    + rewrite (H1 y) in Hy; [done | left].
    + destruct (IH before) as (-> & -> & ->); try done.
      intros a' Ha'. apply H1. by right.
Qed.

Lemma no_element_of_kind {A : Type} (P : A → bool) (l before : list A) y after :
  l = before ++ y :: after → P y = true → (∀ a, a ∈ l → P a = false) → False.
Proof.
  intros -> Hy Hnone. rewrite (Hnone y) in Hy; [done|].
  apply elem_of_app. right. left.
Qed.

(** The three ways a dial goes: the transport fails; the authentication
    fails; the ingestion task is started and the login packet written. *)
Lemma Dial_paths w dialer network address :
  let transport := dialTransport w network address in
  let key := ecdsa_GenerateKey w in
  let auth := dialAuth w dialer key in
  (∃ err,
     snd transport = inr err ∧
     Dial w dialer network address = (fst transport, Returned None (Some err))) ∨
  (∃ netConn err,
     snd transport = inl netConn ∧ snd (snd auth) = Some err ∧
     Dial w dialer network address =
       (fst transport ++ GenerateKey key :: fst auth, Returned None (Some err))) ∨
  (∃ netConn c pk written,
     snd transport = inl netConn ∧ snd (snd auth) = None ∧
     c = dialConn w dialer address netConn key ∧
     pk = loginPacket w (fst (snd auth)) c key ∧
     written = conn_WritePacket w c pk ∧
     Dial w dialer network address =
       ((fst transport ++ GenerateKey key :: fst auth ++ [GoListenConn c (dialErrorLog dialer)])
          ++ WritePacket c pk written :: fst (afterLogin w c written),
        snd (afterLogin w c written))).
Proof.
  intros transport key auth. rewrite Dial_eq. cbn zeta. fold transport key auth.
  destruct (snd transport) as [netConn|err]; [|left; eauto].
  right. destruct (snd (snd auth)) as [err|]; [left; eauto|].
  right. eexists netConn, _, _, _. split_and!; try done.
  f_equal. rewrite <- !app_assoc. simpl. by rewrite <- app_assoc.
Qed.

Lemma Dial_setup_actions w dialer network address a :
  a ∈ fst (dialTransport w network address)
        ++ GenerateKey (ecdsa_GenerateKey w) :: fst (dialAuth w dialer (ecdsa_GenerateKey w)) →
  isWrite a = false ∧ isGoListenConn a = false.
Proof.
  intros [Hin | Hin]%elem_of_app.
  - by apply dialTransport_actions in Hin as (_ & ? & ?).
  - apply elem_of_cons in Hin as [-> | Hin]; [done|].
    apply dialAuth_actions in Hin. by destruct a.
Qed.

Lemma Dial_setup_stageFailed w dialer network address s e :
  stageFailed (fst (dialTransport w network address)
        ++ GenerateKey (ecdsa_GenerateKey w) :: fst (dialAuth w dialer (ecdsa_GenerateKey w))) s e →
  stageFailed (fst (dialAuth w dialer (ecdsa_GenerateKey w))) s e.
Proof.
  rewrite stageFailed_app, stageFailed_cons by done. intros [H | H]; [|done].
  exfalso. revert H. apply stageFailed_none.
  intros a Hin. by apply dialTransport_actions in Hin as (? & _).
Qed.

Lemma stageError_identifies s1 s2 e1 e2 :
  stageError s1 +:+ e1 = stageError s2 +:+ e2 → s1 = s2 ∧ e1 = e2.
Proof. destruct s1, s2; simpl; intros H; by simplify_eq. Qed.

Lemma stageError_not_timeout s e : stageError s +:+ e ≠ "connection timeout".
Proof. by destruct s. Qed.

(** A token exchange that fails in the course of a dial ends the dial on
    the path of the failed authentication. *)
Lemma Dial_stageFailed w dialer network address s err :
  stageFailed (fst (Dial w dialer network address)) s err →
  Dial w dialer network address =
    (fst (dialTransport w network address)
       ++ GenerateKey (ecdsa_GenerateKey w) :: fst (dialAuth w dialer (ecdsa_GenerateKey w)),
     Returned None (Some (stageError s +:+ err))).
Proof.
  intros Hfailed.
  destruct (Dial_paths w dialer network address)
    as [(e & _ & Heq) | [(netConn & e & _ & Hauth & Heq) |
                         (netConn & c & pk & written & _ & Hauth & _ & _ & _ & Heq)]];
    rewrite Heq in Hfailed |- *; simpl in Hfailed.
  - exfalso. revert Hfailed. apply stageFailed_none.
    intros a Hin. by apply dialTransport_actions in Hin as (? & _).
  - apply Dial_setup_stageFailed in Hfailed.
    apply dialAuth_failed in Hauth as (s0 & e0 & -> & Honly).
    by destruct (Honly s err Hfailed) as [-> ->].
  - exfalso. apply stageFailed_app in Hfailed as [Hfailed | Hfailed].
    + change (GenerateKey ?k :: ?l ++ ?m) with ((GenerateKey k :: l) ++ m) in Hfailed.
      rewrite app_assoc in Hfailed.
      apply stageFailed_app in Hfailed as [Hfailed | Hfailed].
      * apply Dial_setup_stageFailed in Hfailed.
        by apply (dialAuth_succeeded w dialer (ecdsa_GenerateKey w) s err).
      * revert Hfailed. apply stageFailed_none.
        intros a Hin. by apply list_elem_of_singleton in Hin as ->.
    + rewrite stageFailed_cons in Hfailed by done.
      revert Hfailed. apply stageFailed_none.
      intros a Hin. by apply afterLogin_actions in Hin as (? & _).
Qed.

(* ===================================================================== *)
(** ** Properties of Dial *)

(** C5.  In a dial with a non-empty e-mail address, when one of the three
    token exchanges fails the dial returns no connection and the error of
    that exchange behind the words that name its stage, and no packet has
    been sent; the words tell the three stages apart. *)
Theorem Dial_auth_failure_aborts
    (w : World) (dialer : Dialer) (network address : string) (s : Stage) (err : error) :
  Email dialer ≠ "" →
  stageFailed (fst (Dial w dialer network address)) s err →
  snd (Dial w dialer network address) = Returned None (Some (stageError s +:+ err)) ∧
  ¬ packetSent (fst (Dial w dialer network address)) ∧
  (∀ s' err', stageError s' +:+ err' = stageError s +:+ err → s' = s ∧ err' = err).
Proof.
  intros Hemail Hfailed. apply Dial_stageFailed in Hfailed as ->.
  split_and!; [done | |intros s' err'; apply stageError_identifies].
  rewrite packetSent_isWrite. intros (a & Hin & Hwrite). simpl in Hin.
  apply Dial_setup_actions in Hin as [? _]. congruence.
Qed.

Lemma Dial_auth_failure_aborts_witness :
  let w := sampleWorld (inr "denied") None [connected] in
  let dialer := mkDialer None login.emptyClientData "steve@example.com" "secret" None in
  Email dialer ≠ "" ∧
  stageFailed (fst (Dial w dialer "raknet" "mc.example.com:19132")) XSTSToken "denied" ∧
  snd (Dial w dialer "raknet" "mc.example.com:19132")
    = Returned None (Some "error obtaining XSTS token: denied") ∧
  ¬ packetSent (fst (Dial w dialer "raknet" "mc.example.com:19132")) ∧
  (∀ s' err', stageError s' +:+ err' = stageError XSTSToken +:+ "denied" →
     s' = XSTSToken ∧ err' = "denied").
Proof.
  assert (stageFailed
            (fst (Dial (sampleWorld (inr "denied") None [connected])
                    (mkDialer None login.emptyClientData "steve@example.com" "secret" None)
                    "raknet" "mc.example.com:19132")) XSTSToken "denied") as Hfailed.
  { exists "live". vm_compute. do 3 right. left. }
  split; [discriminate|]. split; [exact Hfailed|].
  exact (Dial_auth_failure_aborts
           (sampleWorld (inr "denied") None [connected])
           (mkDialer None login.emptyClientData "steve@example.com" "secret" None)
           "raknet" "mc.example.com:19132" XSTSToken "denied"
           ltac:(discriminate) Hfailed).
Defined.

(** C8.  Whenever a dial writes a packet, the start of the ingestion task
    ([go listenConn]) on the same connection is among the actions before
    the write, and no packet was written before it: the task is started
    strictly before the login packet, the first packet sent. *)
Theorem Dial_listens_before_login
    (w : World) (dialer : Dialer) (network address : string)
    (before after : list Effect) (c : Conn) (pk : Login) (answer : option error) :
  fst (Dial w dialer network address) = before ++ WritePacket c pk answer :: after →
  GoListenConn c (dialErrorLog dialer) ∈ before ∧
  ¬ packetSent before ∧
  ClientProtocol pk = protocol.CurrentProtocol ∧
  (∀ a, a ∈ after → isGoListenConn a = false).
Proof.
  intros Hsplit.
  destruct (Dial_paths w dialer network address)
    as [(e & _ & Heq) | [(netConn & e & _ & Hauth & Heq) |
                         (netConn & c0 & pk0 & written & _ & Hauth & Hc0 & Hpk0 & Hwritten & Heq)]];
    rewrite Heq in Hsplit; simpl in Hsplit.
  - exfalso. apply (no_element_of_kind isWrite _ _ _ _ Hsplit); [done|].
    intros a Hin. by apply dialTransport_actions in Hin as (_ & ? & _).
  - exfalso. apply (no_element_of_kind isWrite _ _ _ _ Hsplit); [done|].
    intros a Hin. by apply Dial_setup_actions in Hin as [? _].
  - assert (∀ a, a ∈ fst (dialTransport w network address)
                       ++ GenerateKey (ecdsa_GenerateKey w)
                          :: fst (dialAuth w dialer (ecdsa_GenerateKey w))
                          ++ [GoListenConn c0 (dialErrorLog dialer)] →
                 isWrite a = false) as Hsetup.
    { intros a Hin.
      change (GenerateKey ?k :: ?l ++ ?m) with ((GenerateKey k :: l) ++ m) in Hin.
      rewrite app_assoc in Hin. apply elem_of_app in Hin as [Hin | Hin].
      - by apply Dial_setup_actions in Hin as [? _].
      - by apply list_elem_of_singleton in Hin as ->. }
    apply (split_at_only isWrite) in Hsplit as (-> & Hw & ->); [|done|done|].
    + injection Hw as -> -> ->. rewrite Hpk0. split_and!.
      * apply elem_of_app. right. right. apply elem_of_app. right. left.
      * rewrite packetSent_isWrite. intros (a & Hin & Ha).
        rewrite (Hsetup a Hin) in Ha. discriminate.
      * reflexivity.
      * intros a Hin. by apply afterLogin_actions in Hin as (_ & _ & ?).
    + intros a Hin. by apply afterLogin_actions in Hin as (_ & ? & _).
Qed.

Lemma Dial_listens_before_login_witness :
  let w := sampleWorld (inl "xsts") None [connected] in
  let dialer := mkDialer None login.emptyClientData "steve@example.com" "secret" None in
  let c := dialConn w dialer "mc.example.com:19132" (net.conn 1) (Some (ecdsa.privateKey 7)) in
  let pk := loginPacket w "chain" c (Some (ecdsa.privateKey 7)) in
  let before :=
    [RaknetDial "mc.example.com:19132" (inl (net.conn 1));
     GenerateKey (Some (ecdsa.privateKey 7));
     RequestLiveToken "steve@example.com" "secret" (inl "live");
     RequestXSTSToken "live" (inl "xsts");
     RequestMinecraftChain "xsts" (Some (ecdsa.privateKey 7)) (inl "chain");
     GoListenConn c (dialErrorLog dialer)] in
  fst (Dial w dialer "raknet" "mc.example.com:19132")
    = before ++ WritePacket c pk None :: [Receive connected] ∧
  snd (Dial w dialer "raknet" "mc.example.com:19132") = Returned (Some c) None ∧
  GoListenConn c (dialErrorLog dialer) ∈ before ∧
  ¬ packetSent before ∧
  ClientProtocol pk = protocol.CurrentProtocol ∧
  (∀ a, a ∈ [Receive connected] → isGoListenConn a = false).
Proof.
  intros w dialer c pk before.
  assert (fst (Dial w dialer "raknet" "mc.example.com:19132")
            = before ++ WritePacket c pk None :: [Receive connected]) as Hsplit.
  { vm_compute. reflexivity. }
  split; [exact Hsplit|]. split; [vm_compute; reflexivity|].
  exact (Dial_listens_before_login w dialer "raknet" "mc.example.com:19132"
           before [Receive connected] c pk None Hsplit).
Defined.

Lemma Dial_setup_no_receive w dialer network address s :
  Receive s ∉ fst (dialTransport w network address)
        ++ GenerateKey (ecdsa_GenerateKey w) :: fst (dialAuth w dialer (ecdsa_GenerateKey w)).
Proof.
  intros [Hin | Hin]%elem_of_app.
  - rewrite dialTransport_eq in Hin. simpl in Hin.
    apply list_elem_of_singleton in Hin. by destruct (String.eqb network "raknet").
  - apply elem_of_cons in Hin as [Hin | Hin]; [done|].
    by apply dialAuth_actions in Hin.
Qed.

(** What a dial returns once it has written, or failed to write, the login
    packet is what the code after the write gives. *)
Lemma Dial_written w dialer network address c pk written :
  WritePacket c pk written ∈ fst (Dial w dialer network address) →
  snd (Dial w dialer network address) = snd (afterLogin w c written).
Proof.
  destruct (Dial_paths w dialer network address)
    as [(e & _ & Heq) | [(netConn & e & _ & Hauth & Heq) |
                         (netConn & c0 & pk0 & written0 & _ & Hauth & _ & _ & _ & Heq)]];
    rewrite Heq; simpl; intros Hin.
  - by apply dialTransport_actions in Hin as (_ & ? & _).
  - by apply Dial_setup_actions in Hin as [? _].
  - apply elem_of_app in Hin as [Hin | Hin].
    + change (GenerateKey ?k :: ?l ++ ?m) with ((GenerateKey k :: l) ++ m) in Hin.
      rewrite app_assoc in Hin. apply elem_of_app in Hin as [Hin | Hin].
      * by apply Dial_setup_actions in Hin as [? _].
      * by apply list_elem_of_singleton in Hin.
    + apply elem_of_cons in Hin as [Hin | Hin]; [by simplify_eq|].
      by apply afterLogin_actions in Hin as (_ & ? & _).
Qed.

(** A dial receives a signal exactly when it has written the login packet
    and its select proceeds on that signal. *)
Lemma Dial_receives w dialer network address s :
  Receive s ∈ fst (Dial w dialer network address) ↔
  (∃ c pk, WritePacket c pk None ∈ fst (Dial w dialer network address)) ∧
  selectCase w = Some s.
Proof.
  destruct (Dial_paths w dialer network address)
    as [(e & _ & Heq) | [(netConn & e & _ & Hauth & Heq) |
                         (netConn & c0 & pk0 & written & _ & Hauth & _ & _ & _ & Heq)]];
    rewrite Heq; simpl.
  - split.
    + intros Hin. rewrite dialTransport_eq in Hin. simpl in Hin.
      apply list_elem_of_singleton in Hin. by destruct (String.eqb network "raknet").
    + intros [(c & pk & Hin) _]. by apply dialTransport_actions in Hin as (_ & ? & _).
  - split.
    + intros Hin. by apply Dial_setup_no_receive in Hin.
    + intros [(c & pk & Hin) _]. by apply Dial_setup_actions in Hin as [? _].
  - change (GenerateKey ?k :: ?l ++ ?m) with ((GenerateKey k :: l) ++ m).
    rewrite (app_assoc (fst (dialTransport w network address))).
    split.
    + intros [[Hin | Hin]%elem_of_app | Hin]%elem_of_app.
      { by apply Dial_setup_no_receive in Hin. }
      { by apply list_elem_of_singleton in Hin. }
      apply elem_of_cons in Hin as [Hin | Hin]; [done|].
      destruct written as [e|]; [by apply elem_of_nil in Hin|].
      split.
      * exists c0, pk0. apply elem_of_app. right. left.
      * rewrite afterLogin_selected in Hin.
        destruct (selectCase w) as [[]|]; simpl in Hin; elem_cases Hin; by simplify_eq.
    + intros [(c & pk & [[Hin | Hin]%elem_of_app | Hin]%elem_of_app) Hcase].
      { by apply Dial_setup_actions in Hin as [? _]. }
      { by apply list_elem_of_singleton in Hin. }
      apply elem_of_app. right. right.
      apply elem_of_cons in Hin as [Hin | Hin].
      * simplify_eq. rewrite afterLogin_selected, Hcase. destruct s; left.
      * by apply afterLogin_actions in Hin as (_ & ? & _).
Qed.

Lemma Request_error_not_timeout queue ids :
  snd (Request queue ids) ≠ Some "connection timeout".
Proof.
  rewrite Request_spec. simpl.
  by destruct (firstMissing (packs queue) ids).
Qed.

Lemma authChain_error_not_timeout w email password key :
  snd (snd (authChain w email password key)) ≠ Some "connection timeout".
Proof. rewrite authChain_eq. by repeat case_match. Qed.

(** C4, as the specification states it, fails.  The select of [Dial] gives
    neither channel precedence: when the close signal has fired, and then the
    connected signal, before the dial reaches the select, the runtime may
    pick the connected case, and the dial returns the connection.  And a dial
    whose login packet could not be written returns the error of the write,
    whatever the signals do. *)
Lemma Dial_close_first_may_connect :
  let dialer := mkDialer None login.emptyClientData "" "" None in
  (let w := atSelect (sampleWorld (inl "xsts") None [close; connected]) 2 connected in
   signals w = [close; connected] ∧
   readySignals w = [close; connected] ∧
   ∃ c, snd (Dial w dialer "tcp" "mc.example.com:19132") = Returned (Some c) None) ∧
  (let w := sampleWorld (inl "xsts") (Some "broken pipe") [close] in
   signals w = [close] ∧
   snd (Dial w dialer "tcp" "mc.example.com:19132") = Returned None (Some "broken pipe") ∧
   "broken pipe" ≠ "connection timeout").
Proof.
  split.
  - split; [reflexivity|]. split; [reflexivity|]. eexists. vm_compute. reflexivity.
  - split; [reflexivity|]. split; [vm_compute; reflexivity | done].
Qed.

(** C4, amended.  Let the close signal of the connection be the first to
    fire.  If the connected signal has not fired when the dial reaches its
    select, as when it never fires, the dial returns no connection and an
    error, and a dial that has written the login packet receives the close
    signal and returns the error "connection timeout".  A dial whose login
    packet could not be written returns the error of the write.  If the
    connected signal too has fired by then, both channels are ready and the
    dial returns what the case picked by the runtime gives: the connection,
    or the error "connection timeout".  No other function of the sources
    returns that error: not [authChain], not [Request]. *)
Theorem Dial_close_first_outcome
    (w : World) (dialer : Dialer) (network address : string) (rest : list Signal) :
  signals w = close :: rest →
  (connected ∉ readySignals w →
     (∃ err, snd (Dial w dialer network address) = Returned None (Some err)) ∧
     ((∃ c pk, WritePacket c pk None ∈ fst (Dial w dialer network address)) →
        snd (Dial w dialer network address) = Returned None (Some "connection timeout") ∧
        Receive close ∈ fst (Dial w dialer network address) ∧
        Receive connected ∉ fst (Dial w dialer network address))) ∧
  (∀ c pk err,
     WritePacket c pk (Some err) ∈ fst (Dial w dialer network address) →
     snd (Dial w dialer network address) = Returned None (Some err)) ∧
  (connected ∈ readySignals w →
     close ∈ readySignals w ∧
     ∀ c pk,
       WritePacket c pk None ∈ fst (Dial w dialer network address) →
       snd (Dial w dialer network address) =
         match selectPick w with
         | connected => Returned (Some c) None
         | close => Returned None (Some "connection timeout")
         end) ∧
  (∀ email password key,
     snd (snd (authChain w email password key)) ≠ Some "connection timeout") ∧
  (∀ queue ids, snd (Request queue ids) ≠ Some "connection timeout").
Proof.
  intros Hsignals.
  assert (connected ∉ readySignals w → selectCase w = Some close) as Hclose.
  { intros Hnot. rewrite selectCase_eq, decide_False by done.
    case_decide; [done|]. by rewrite Hsignals. }
  split_and!.
  - intros Hnot. split.
    + destruct (Dial_paths w dialer network address)
        as [(e & _ & Heq) | [(netConn & e & _ & Hauth & Heq) |
                             (netConn & c0 & pk0 & written & _ & Hauth & Hc0 & Hpk0 & Hwritten & Heq)]];
        rewrite Heq; simpl; eauto.
      destruct written as [e|]; [simpl; eauto|].
      rewrite afterLogin_selected, Hclose by done. simpl. eauto.
    + intros (c & pk & Hin). split_and!.
      * rewrite (Dial_written _ _ _ _ _ _ _ Hin), afterLogin_selected, Hclose by done. done.
      * apply Dial_receives. split; [eauto | by apply Hclose].
      * intros [_ Hcase]%Dial_receives. rewrite Hclose in Hcase by done. done.
  - intros c pk err Hin. by rewrite (Dial_written _ _ _ _ _ _ _ Hin).
  - intros Hconnected.
    assert (close ∈ readySignals w) as Hready.
    { revert Hconnected. unfold readySignals. rewrite Hsignals.
      destruct (firedBeforeSelect w); simpl; [|intros _; left].
      intros Hin. by apply elem_of_nil in Hin. }
    split; [done|]. intros c pk Hin.
    rewrite (Dial_written _ _ _ _ _ _ _ Hin), afterLogin_selected, selectCase_eq.
    rewrite !decide_True by done. by destruct (selectPick w).
  - intros email password key. apply authChain_error_not_timeout.
  - apply Request_error_not_timeout.
Qed.

Lemma Dial_close_first_outcome_witness :
  let dialer := mkDialer None login.emptyClientData "" "" None in
  let w := atSelect (sampleWorld (inl "xsts") None [close; connected]) 1 close in
  signals w = close :: [connected] ∧
  (connected ∉ readySignals w) ∧
  (∃ c pk, WritePacket c pk None ∈ fst (Dial w dialer "tcp" "mc.example.com:19132")) ∧
  (connected ∉ readySignals w →
     (∃ err, snd (Dial w dialer "tcp" "mc.example.com:19132") = Returned None (Some err)) ∧
     ((∃ c pk, WritePacket c pk None ∈ fst (Dial w dialer "tcp" "mc.example.com:19132")) →
        snd (Dial w dialer "tcp" "mc.example.com:19132")
          = Returned None (Some "connection timeout") ∧
        Receive close ∈ fst (Dial w dialer "tcp" "mc.example.com:19132") ∧
        Receive connected ∉ fst (Dial w dialer "tcp" "mc.example.com:19132"))) ∧
  (∀ c pk err,
     WritePacket c pk (Some err) ∈ fst (Dial w dialer "tcp" "mc.example.com:19132") →
     snd (Dial w dialer "tcp" "mc.example.com:19132") = Returned None (Some err)) ∧
  (connected ∈ readySignals w →
     close ∈ readySignals w ∧
     ∀ c pk,
       WritePacket c pk None ∈ fst (Dial w dialer "tcp" "mc.example.com:19132") →
       snd (Dial w dialer "tcp" "mc.example.com:19132") =
         match selectPick w with
         | connected => Returned (Some c) None
         | close => Returned None (Some "connection timeout")
         end) ∧
  (∀ email password key,
     snd (snd (authChain w email password key)) ≠ Some "connection timeout") ∧
  (∀ queue ids, snd (Request queue ids) ≠ Some "connection timeout").
Proof.
  split; [reflexivity|].
  split.
  { intros Hin. vm_compute in Hin. apply elem_of_cons in Hin as [Hin | Hin]; [discriminate|].
    by apply elem_of_nil in Hin. }
  split.
  { eexists _, _. vm_compute. do 3 right. left. }
  exact (Dial_close_first_outcome
           (atSelect (sampleWorld (inl "xsts") None [close; connected]) 1 close)
           (mkDialer None login.emptyClientData "" "" None)
           "tcp" "mc.example.com:19132" [connected] eq_refl).
Defined.

(* ===================================================================== *)
(** ** Further properties of the queue *)

Lemma enqueue_lookup_is_Some toDownload resolved index :
  is_Some (toDownload !! index) → is_Some (enqueue toDownload resolved !! index).
Proof.
  unfold enqueue. revert toDownload.
  induction resolved as [|p rest IH]; intros toDownload Hsome; simpl; [done|].
  apply IH. destruct (decide (resource.UUID p = index)) as [<- | Hne].
  - rewrite lookup_insert_eq. by eexists.
  - by rewrite lookup_insert_ne.
Qed.

Lemma enqueue_keys toDownload resolved index :
  is_Some (enqueue toDownload resolved !! index) ↔
  is_Some (toDownload !! index) ∨ ∃ pack, pack ∈ resolved ∧ resource.UUID pack = index.
Proof.
  split.
  - intros [pack Hpack]. apply enqueue_lookup_Some in Hpack as [[Hin ->] | Hm].
    + right. by exists pack.
    + left. by eexists.
  - intros [Hsome | (pack & Hin & <-)]; [by apply enqueue_lookup_is_Some|].
    revert toDownload. induction resolved as [|p rest IH]; intros toDownload;
      [by apply elem_of_nil in Hin|].
    change (enqueue toDownload (p :: rest))
      with (enqueue (<[resource.UUID p := p]> toDownload) rest).
    apply elem_of_cons in Hin as [-> | Hin]; [|by apply IH].
    apply enqueue_lookup_is_Some. rewrite lookup_insert_eq. by eexists.
Qed.

Lemma NextPack_Some packChunkSize range queue index pack :
  range (packsToDownload queue) = Some (index, pack) →
  NextPack packChunkSize range queue =
  (mkQueue (packs queue) (delete index (packsToDownload queue)) (Some pack) 0
     (packAmount queue) (downloadingPacks queue) (awaitingPacks queue),
   Some (dataInfo packChunkSize pack), true).
Proof. intros H. unfold NextPack. by rewrite H. Qed.

Lemma NextPack_None packChunkSize range queue :
  range (packsToDownload queue) = None →
  NextPack packChunkSize range queue = (queue, None, false).
Proof. intros H. unfold NextPack. by rewrite H. Qed.

(** X1.  A request replaces an earlier one, whatever either returned: the
    queue and the error after two requests in a row are those of the second
    alone.  A request touches nothing but the set of packs to download. *)
Theorem Request_replaces_earlier_request
    (queue : resourcePackQueue) (earlier ids : list string) :
  Request (fst (Request queue earlier)) ids = Request queue ids ∧
  Request (fst (Request queue ids)) ids = Request queue ids ∧
  packs (fst (Request queue ids)) = packs queue ∧
  currentPack (fst (Request queue ids)) = currentPack queue ∧
  currentOffset (fst (Request queue ids)) = currentOffset queue ∧
  packAmount (fst (Request queue ids)) = packAmount queue ∧
  downloadingPacks (fst (Request queue ids)) = downloadingPacks queue ∧
  awaitingPacks (fst (Request queue ids)) = awaitingPacks queue.
Proof. rewrite !Request_spec. by split_and!. Qed.

(** X2.  After a request, successful or not, every pack to download is an
    offered pack filed under its own UUID, and the keys of the set are
    exactly the UUIDs of the packs resolved before the request returned. *)
Theorem Request_requests_offered_packs (queue : resourcePackQueue) (ids : list string) :
  requestedAreOffered (fst (Request queue ids)) ∧
  (∀ index,
     is_Some (packsToDownload (fst (Request queue ids)) !! index) ↔
     ∃ pack, pack ∈ resolvedPrefix (packs queue) ids ∧ resource.UUID pack = index) ∧
  (size (packsToDownload (fst (Request queue ids))) ≤ length ids)%nat.
Proof.
  rewrite Request_spec. simpl. split_and!.
  - intros index pack H. simpl in H.
    apply enqueue_lookup_Some in H as [[Hin ->] | H]; [|by rewrite lookup_empty in H].
    split; [done|]. simpl.
    apply elem_of_resolvedPrefix in Hin as (packUUID & _ & Hfind).
    by apply findPack_Some in Hfind as [? _].
  - intros index. rewrite enqueue_keys, lookup_empty. split.
    + intros [[? [=]] | H]; done.
    + by right.
  - assert (∀ resolved (m : gmap string resource.Pack),
              (size (enqueue m resolved) ≤ size m + length resolved)%nat) as Hsize.
    { induction resolved as [|p rest IH]; intros m; [simpl; lia|].
      change (enqueue m (p :: rest)) with (enqueue (<[resource.UUID p := p]> m) rest).
      etrans; [apply IH|]. simpl.
      destruct (m !! resource.UUID p) eqn:E.
      - rewrite map_size_insert_Some by done. lia.
      - rewrite map_size_insert_None by done. lia. }
    etrans; [apply Hsize|]. rewrite map_size_empty. simpl.
    clear. induction ids as [|i rest IH]; simpl; [done|].
    destruct (findPack (packs queue) i); simpl; lia.
Qed.

Lemma enqueue_empty resolved : enqueue ∅ resolved = ∅ ↔ resolved = [].
Proof.
  split; [|by intros ->].
  destruct resolved as [|pack rest]; [done|]. intros Hempty. exfalso.
  assert (is_Some (enqueue ∅ (pack :: rest) !! resource.UUID pack)) as [p Hp].
  { apply enqueue_keys. right. exists pack. split; [left | done]. }
  by rewrite Hempty, lookup_empty in Hp.
Qed.

(** X3.  Right after a request, [AllDownloaded] is true exactly when the
    request resolved nothing before it returned: the list of identifiers was
    empty, or its first identifier names no offered pack. *)
Theorem AllDownloaded_after_Request (queue : resourcePackQueue) (ids : list string) :
  AllDownloaded (fst (Request queue ids)) = true ↔
  ids = [] ∨ ∃ packUUID rest, ids = packUUID :: rest ∧ findPack (packs queue) packUUID = None.
Proof.
  rewrite AllDownloaded_true, Request_spec.
  cbn [fst packsToDownload set_packsToDownload]. rewrite enqueue_empty.
  destruct ids as [|packUUID rest]; cbn [resolvedPrefix].
  - split; [by left | done].
  - destruct (findPack (packs queue) packUUID) as [pack|] eqn:E.
    + split; [done|]. intros [? | (? & ? & [= <- <-] & ?)]; [done | congruence].
    + split; [|done]. intros _. right. by exists packUUID, rest.
Qed.

(** X4.  On a queue whose packs to download are offered packs filed under
    their UUIDs, as [Request] leaves it, a successful [NextPack] makes an
    offered pack current that was to be downloaded and no longer is; the
    packet names the key it removed; the catalog and the download records
    are untouched, and the queue that is left is of the same kind. *)
Theorem NextPack_hands_out_requested_pack
    (packChunkSize : Z) (range : rangeChoice) (queue : resourcePackQueue)
    (queue' : resourcePackQueue) (pk : packet.ResourcePackDataInfo) :
  validRange range →
  requestedAreOffered queue →
  NextPack packChunkSize range queue = (queue', Some pk, true) →
  ∃ pack,
    currentPack queue' = Some pack ∧
    pack ∈ packs queue ∧
    isRequested queue pack ∧
    ¬ isRequested queue' pack ∧
    packsToDownload queue' = delete (packet.UUID pk) (packsToDownload queue) ∧
    pk = dataInfo packChunkSize pack ∧
    packs queue' = packs queue ∧
    packAmount queue' = packAmount queue ∧
    downloadingPacks queue' = downloadingPacks queue ∧
    awaitingPacks queue' = awaitingPacks queue ∧
    requestedAreOffered queue'.
Proof.
  intros Hvalid Hinv Hnext.
  specialize (Hvalid (packsToDownload queue)).
  destruct (range (packsToDownload queue)) as [[index pack]|] eqn:Hrange.
  - rewrite (NextPack_Some _ _ _ _ _ Hrange) in Hnext. injection Hnext as <- <-.
    destruct (Hinv index pack Hvalid) as [-> Hoffered].
    exists pack. simpl. split_and!; try done.
    + by exists (resource.UUID pack).
    + intros [index H]. simpl in H.
      apply lookup_delete_Some in H as [Hne H].
      by destruct (Hinv index pack H) as [-> _].
    + intros index p H. simpl in H |- *.
      apply lookup_delete_Some in H as [_ H]. by apply Hinv.
  - by rewrite (NextPack_None _ _ _ Hrange) in Hnext.
Qed.

Lemma NextPack_hands_out_requested_pack_witness :
  let A := resource.mkPack "A" "1.0" 300 "ca" in
  let B := resource.mkPack "B" "2.0" 10 "cb" in
  let queue := fst (Request (newQueue [A; B]) ["B_2.0"; "A_1.0"]) in
  let queue' := mkQueue [A; B] {[ "B" := B ]} (Some A) 0 0 ∅ ∅ in
  let pk := packet.mkResourcePackDataInfo "A" 128 3 300 "ca" in
  validRange rangeFirst ∧
  requestedAreOffered queue ∧
  NextPack 128 rangeFirst queue = (queue', Some pk, true) ∧
  ∃ pack,
    currentPack queue' = Some pack ∧
    pack ∈ packs queue ∧
    isRequested queue pack ∧
    ¬ isRequested queue' pack ∧
    packsToDownload queue' = delete (packet.UUID pk) (packsToDownload queue) ∧
    pk = dataInfo 128 pack ∧
    packs queue' = packs queue ∧
    packAmount queue' = packAmount queue ∧
    downloadingPacks queue' = downloadingPacks queue ∧
    awaitingPacks queue' = awaitingPacks queue ∧
    requestedAreOffered queue'.
Proof.
  intros A B queue queue' pk.
  assert (requestedAreOffered queue) as Hinv.
  { intros index pack H. subst queue. simpl in H.
    apply lookup_insert_Some in H as [[<- <-] | [_ H]];
      [split; [done | by left]|].
    apply lookup_insert_Some in H as [[<- <-] | [_ H]];
      [split; [done | by right; left]|].
    by rewrite lookup_empty in H. }
  assert (NextPack 128 rangeFirst queue = (queue', Some pk, true)) as Hnext.
  { vm_compute. reflexivity. }
  split; [exact rangeFirst_valid|]. split; [exact Hinv|]. split; [exact Hnext|].
  exact (NextPack_hands_out_requested_pack 128 rangeFirst queue queue' pk
           rangeFirst_valid Hinv Hnext).
Defined.

Lemma NextPacks_spec packChunkSize ranges queue :
  Forall validRange ranges →
  (size (packsToDownload queue) ≤ length ranges)%nat →
  packsToDownload (fst (NextPacks packChunkSize ranges queue)) = ∅ ∧
  snd (NextPacks packChunkSize ranges queue)
    ≡ₚ (dataInfo packChunkSize ∘ snd) <$> map_to_list (packsToDownload queue).
Proof.
  revert queue. induction ranges as [|range rest IH]; intros queue Hvalid Hsize.
  - simpl in Hsize. assert (packsToDownload queue = ∅) as Hempty.
    { apply map_size_empty_iff. lia. }
    simpl. by rewrite Hempty, map_to_list_empty.
  - apply Forall_cons in Hvalid as [Hrange Hrest]. simpl.
    pose proof (Hrange (packsToDownload queue)) as Hchoice.
    destruct (range (packsToDownload queue)) as [[index pack]|] eqn:E.
    + rewrite (NextPack_Some _ _ _ _ _ E).
      set (queue' := mkQueue _ _ _ _ _ _ _).
      destruct (IH queue' Hrest) as [Hempty Hperm].
      { subst queue'. simpl. rewrite map_size_delete, Hchoice. simpl in Hsize. lia. }
      destruct (NextPacks packChunkSize rest queue') as [final pks]. simpl in *.
      split; [done|]. rewrite Hperm.
      rewrite <- (map_to_list_delete (packsToDownload queue) index pack Hchoice).
      done.
    + rewrite (NextPack_None _ _ _ E). simpl.
      split; [done|]. by rewrite Hchoice, map_to_list_empty.
Qed.

(** X5.  Calling [NextPack] until it returns false, at least as often as
    there are packs to download, hands out every pack to download exactly
    once, in some order, and nothing else; it leaves the set empty, so that
    [AllDownloaded] is true and a further [NextPack] returns (nil, false). *)
Theorem NextPacks_hands_out_every_pack
    (packChunkSize : Z) (ranges : list rangeChoice) (range : rangeChoice)
    (queue : resourcePackQueue) :
  Forall validRange ranges →
  validRange range →
  (size (packsToDownload queue) ≤ length ranges)%nat →
  snd (NextPacks packChunkSize ranges queue)
    ≡ₚ (dataInfo packChunkSize ∘ snd) <$> map_to_list (packsToDownload queue) ∧
  length (snd (NextPacks packChunkSize ranges queue)) = size (packsToDownload queue) ∧
  packsToDownload (fst (NextPacks packChunkSize ranges queue)) = ∅ ∧
  AllDownloaded (fst (NextPacks packChunkSize ranges queue)) = true ∧
  NextPack packChunkSize range (fst (NextPacks packChunkSize ranges queue))
    = (fst (NextPacks packChunkSize ranges queue), None, false).
Proof.
  intros Hvalid Hrange Hsize.
  destruct (NextPacks_spec packChunkSize ranges queue Hvalid Hsize) as [Hempty Hperm].
  split_and!; [done | | done | by apply AllDownloaded_true |].
  - rewrite Hperm, length_fmap. apply length_map_to_list.
  - apply NextPack_None. rewrite Hempty. by apply validRange_empty.
Qed.

Lemma NextPacks_hands_out_every_pack_witness :
  let A := resource.mkPack "A" "1.0" 300 "ca" in
  let B := resource.mkPack "B" "2.0" 10 "cb" in
  let queue := fst (Request (newQueue [A; B]) ["B_2.0"; "A_1.0"]) in
  let ranges := [rangeFirst; rangeFirst; rangeFirst] in
  Forall validRange ranges ∧
  validRange rangeFirst ∧
  (size (packsToDownload queue) ≤ length ranges)%nat ∧
  snd (NextPacks 128 ranges queue) = [dataInfo 128 A; dataInfo 128 B] ∧
  snd (NextPacks 128 ranges queue)
    ≡ₚ (dataInfo 128 ∘ snd) <$> map_to_list (packsToDownload queue) ∧
  length (snd (NextPacks 128 ranges queue)) = size (packsToDownload queue) ∧
  packsToDownload (fst (NextPacks 128 ranges queue)) = ∅ ∧
  AllDownloaded (fst (NextPacks 128 ranges queue)) = true ∧
  NextPack 128 rangeFirst (fst (NextPacks 128 ranges queue))
    = (fst (NextPacks 128 ranges queue), None, false).
Proof.
  intros A B queue ranges.
  assert (Forall validRange ranges) as Hvalid.
  { repeat apply Forall_cons_2; try exact rangeFirst_valid. apply Forall_nil_2. }
  assert (size (packsToDownload queue) ≤ length ranges)%nat as Hsize.
  { vm_compute. lia. }
  split; [exact Hvalid|]. split; [exact rangeFirst_valid|]. split; [exact Hsize|].
  split; [vm_compute; reflexivity|].
  exact (NextPacks_hands_out_every_pack 128 ranges rangeFirst queue
           Hvalid rangeFirst_valid Hsize).
Defined.

(* ===================================================================== *)
(** ** The course of the ingestion task *)

Arguments handledPackets : simpl never.
Arguments decodeAnswers : simpl never.
Arguments decodedPackets : simpl never.

Lemma handledPackets_app a b : handledPackets (a ++ b) = handledPackets a ++ handledPackets b.
Proof. apply omap_app. Qed.

Lemma decodeAnswers_app a b : decodeAnswers (a ++ b) = decodeAnswers a ++ decodeAnswers b.
Proof. apply omap_app. Qed.

Lemma handledPackets_cons a l :
  handledPackets (a :: l) =
  match a with HandleIncoming data _ => data :: handledPackets l | _ => handledPackets l end.
Proof. by destruct a. Qed.

Lemma decodeAnswers_cons a l :
  decodeAnswers (a :: l) =
  match a with Decode answer => answer :: decodeAnswers l | _ => decodeAnswers l end.
Proof. by destruct a. Qed.

Lemma decodedPackets_cons answer answers :
  decodedPackets (answer :: answers) =
  match answer with inl packets => packets ++ decodedPackets answers
                  | inr _ => decodedPackets answers end.
Proof. by destruct answer. Qed.

(** Brings the projections of a list of actions to the front. *)
Ltac listen_simpl :=
  repeat first
    [ rewrite handledPackets_app | rewrite decodeAnswers_app
    | rewrite handledPackets_cons | rewrite decodeAnswers_cons
    | rewrite decodedPackets_cons
    | rewrite app_nil_r | rewrite <- app_assoc
    | progress change (handledPackets []) with (@nil (list Byte.byte))
    | progress change (decodeAnswers []) with (@nil (list (list Byte.byte) + error))
    | progress change (decodedPackets []) with (@nil (list Byte.byte)) ];
  cbn [app].

Lemma handlePackets_spec i handled packets :
  ∃ quiet,
    Forall (λ a, isQuiet a = true) quiet ∧
    decodeAnswers quiet = [] ∧
    handledPackets quiet `prefix_of` packets ∧
    match snd (handlePackets i handled packets) with
    | None =>
        handlePackets i handled packets = (quiet, handled ++ packets, None) ∧
        handledPackets quiet = packets
    | Some err =>
        ∃ data,
          fst (fst (handlePackets i handled packets))
            = quiet ++ [HandleIncoming data (Some err)] ∧
          handledPackets quiet ++ [data] `prefix_of` packets
    end.
Proof.
  revert handled. induction packets as [|data rest IH]; intros handled; simpl.
  - exists []. rewrite app_nil_r. by split_and!.
  - destruct (conn_handleIncoming i handled data) as [err|] eqn:E; simpl.
    + exists []. split_and!; [done | done | apply prefix_nil |].
      exists data. split; [done|]. by apply prefix_cons, prefix_nil.
    + destruct (IH (handled ++ [data])) as (quiet & Hquiet & Hdec & Hpre & Hcase).
      destruct (handlePackets i (handled ++ [data]) rest) as [[actions handled'] failed].
      simpl in *. exists (HandleIncoming data None :: quiet).
      split_and!; [by constructor | by listen_simpl | listen_simpl; by apply prefix_cons |].
      destruct failed as [err|].
      * destruct Hcase as (d & -> & Hpre'). exists d. split; [done|].
        listen_simpl. by apply prefix_cons.
      * destruct Hcase as [[= -> -> ] Hall]. rewrite <- app_assoc. simpl.
        split; [done | listen_simpl; by f_equal].
Qed.

Lemma Forall_isQuiet_not_failure quiet a :
  Forall (λ a, isQuiet a = true) quiet → a ∈ quiet → isFailure a = false.
Proof.
  intros Hquiet Hin. rewrite Forall_forall in Hquiet. specialize (Hquiet a Hin).
  by destruct a as [[]| ? []| |].
Qed.

Lemma listenLoop_spec i logger answers handled :
  ∃ quiet,
    Forall (λ a, isQuiet a = true) quiet ∧
    (if snd (listenLoop i logger answers handled)
     then ∃ tail, ending i logger tail ∧
                  fst (listenLoop i logger answers handled) = quiet ++ tail
     else fst (listenLoop i logger answers handled) = quiet ∧
          decodeAnswers quiet = answers ∧
          handledPackets quiet = decodedPackets answers) ∧
    decodeAnswers (fst (listenLoop i logger answers handled)) `prefix_of` answers ∧
    handledPackets (fst (listenLoop i logger answers handled))
      `prefix_of` decodedPackets (decodeAnswers (fst (listenLoop i logger answers handled))) ∧
    ((∀ data err, HandleIncoming data (Some err)
                    ∉ fst (listenLoop i logger answers handled)) →
     handledPackets (fst (listenLoop i logger answers handled))
       = decodedPackets (decodeAnswers (fst (listenLoop i logger answers handled)))).
Proof.
  revert handled. induction answers as [|[packets|err] rest IH]; intros handled; simpl.
  - exists []. by split_and!.
  - destruct (handlePackets_spec i handled packets)
      as (quiet & Hquiet & Hdec & Hpre & Hcase).
    destruct (handlePackets i handled packets) as [[actions handled'] failed] eqn:Hp.
    simpl in Hcase. destruct failed as [err|].
    + destruct Hcase as (data & Hact & Hpre'). simpl in Hact. subst actions. simpl.
      exists (Decode (inl packets) :: quiet). split_and!.
      * by constructor.
      * eexists. split; [apply (ending_handle i logger data err)|]. by listen_simpl.
      * listen_simpl. rewrite Hdec. apply prefix_cons, prefix_nil.
      * listen_simpl. rewrite Hdec. by listen_simpl.
      * intros Hnone. exfalso. apply (Hnone data err).
        right. apply elem_of_app. left. apply elem_of_app. right. left.
    + destruct Hcase as [[= -> ->] Hall].
      destruct (IH (handled ++ packets)) as (more & Hmore & Hend & Hdpre & Hhpre & Hheq).
      destruct (listenLoop i logger rest (handled ++ packets)) as [acts returned].
      simpl in *. exists (Decode (inl packets) :: quiet ++ more). split_and!.
      * constructor; [done|]. by apply Forall_app.
      * destruct returned.
        -- destruct Hend as (tail & Htail & ->). exists tail.
           split; [done|]. simpl. by rewrite <- app_assoc.
        -- destruct Hend as (-> & Hd & Hh). split; [done|].
           listen_simpl. by rewrite Hdec, Hd, Hh, Hall.
      * listen_simpl. rewrite Hdec. by apply prefix_cons.
      * listen_simpl. rewrite Hdec, Hall. listen_simpl. by apply prefix_app.
      * intros Hnone. listen_simpl. rewrite Hdec, Hall. listen_simpl. f_equal.
        apply Hheq. intros data err Hin. apply (Hnone data err).
        right. apply elem_of_app. by right.
  - exists []. split_and!.
    + done.
    + destruct (raknet_ErrConnectionClosed i err) eqn:E.
      * eexists. split; [by apply ending_closed | done].
      * eexists. split; [by apply ending_decode | done].
    + destruct (raknet_ErrConnectionClosed i err); listen_simpl; apply prefix_cons, prefix_nil.
    + destruct (raknet_ErrConnectionClosed i err); listen_simpl; apply prefix_nil.
    + intros _. by destruct (raknet_ErrConnectionClosed i err); listen_simpl.
Qed.

Lemma handlePackets_answers i handled packets data answer :
  HandleIncoming data answer ∈ fst (fst (handlePackets i handled packets)) →
  ∃ before, answer = conn_handleIncoming i before data.
Proof.
  revert handled. induction packets as [|d rest IH]; intros handled; simpl.
  - intros Hin. by apply elem_of_nil in Hin.
  - destruct (conn_handleIncoming i handled d) as [err|] eqn:E; simpl.
    + intros Hin. apply list_elem_of_singleton in Hin. injection Hin as -> ->. eauto.
    + specialize (IH (handled ++ [d])).
      destruct (handlePackets i (handled ++ [d]) rest) as [[actions handled'] failed].
      simpl in *. intros Hin. apply elem_of_cons in Hin as [Hin | Hin]; [|by apply IH].
      injection Hin as -> ->. eauto.
Qed.

Lemma listenLoop_answers i logger answers handled data answer :
  HandleIncoming data answer ∈ fst (listenLoop i logger answers handled) →
  ∃ before, answer = conn_handleIncoming i before data.
Proof.
  revert handled. induction answers as [|[packets|err] rest IH]; intros handled; simpl.
  - intros Hin. by apply elem_of_nil in Hin.
  - pose proof (handlePackets_answers i handled packets data answer) as Hinner.
    destruct (handlePackets i handled packets) as [[actions handled'] failed].
    simpl in Hinner. destruct failed as [err|]; simpl.
    + intros Hin. apply elem_of_cons in Hin as [Hin | Hin]; [done|].
      apply elem_of_app in Hin as [Hin | Hin]; [by apply Hinner|].
      by apply list_elem_of_singleton in Hin.
    + specialize (IH handled').
      destruct (listenLoop i logger rest handled') as [more returned]. simpl in *.
      intros Hin. apply elem_of_cons in Hin as [Hin | Hin]; [done|].
      apply elem_of_app in Hin as [Hin | Hin]; [by apply Hinner | by apply IH].
  - intros Hin. apply elem_of_cons in Hin as [Hin | Hin]; [done|].
    destruct (raknet_ErrConnectionClosed i err); [by apply elem_of_nil in Hin|].
    by apply list_elem_of_singleton in Hin.
Qed.

Lemma elem_of_decodeAnswers actions answer :
  answer ∈ decodeAnswers actions ↔ Decode answer ∈ actions.
Proof.
  unfold decodeAnswers. rewrite list_elem_of_omap. split.
  - intros ([] & Hin & Heq); by simplify_eq.
  - intros Hin. by exists (Decode answer).
Qed.

Lemma ending_inv i logger tail :
  ending i logger tail →
  ∃ failure rest,
    tail = failure :: rest ∧ isFailure failure = true ∧
    (rest = [] ∨ ∃ message, rest = [Printf logger message]).
Proof.
  intros []; eexists _, _; (split_and!; [done | done |]); eauto.
Qed.

(** The actions of [listenConn]: those of the loop, and the deferred close
    when the loop is left. *)
Lemma listenConn_eq i c logger :
  listenConn i c logger =
  (fst (listenLoop i logger (decoder_Decode i) [])
     ++ (if snd (listenLoop i logger (decoder_Decode i) []) then [ConnClose c] else []),
   snd (listenLoop i logger (decoder_Decode i) [])).
Proof.
  unfold listenConn. destruct (listenLoop i logger (decoder_Decode i) []) as [actions []];
    simpl; [done | by rewrite app_nil_r].
Qed.

(** The course of [listenConn]: batches decoded and packets handled without
    failure; then, if the function returns, one failure, at most one line
    written to the logger, and the close. *)
Lemma listenConn_course i c logger :
  ∃ quiet,
    Forall (λ a, isQuiet a = true) quiet ∧
    ((snd (listenConn i c logger) = false ∧ fst (listenConn i c logger) = quiet) ∨
     (snd (listenConn i c logger) = true ∧
      ∃ tail, ending i logger tail ∧
              fst (listenConn i c logger) = quiet ++ tail ++ [ConnClose c])).
Proof.
  rewrite listenConn_eq. simpl.
  destruct (listenLoop_spec i logger (decoder_Decode i) []) as (quiet & Hquiet & Hend & _).
  exists quiet. split; [done|].
  destruct (snd (listenLoop i logger (decoder_Decode i) [])).
  - right. destruct Hend as (tail & Htail & ->). split; [done|].
    exists tail. split; [done|]. by rewrite <- app_assoc.
  - left. destruct Hend as (-> & _). by rewrite app_nil_r.
Qed.

Lemma isQuiet_Forall_elem quiet a :
  Forall (λ a, isQuiet a = true) quiet → a ∈ quiet → isQuiet a = true.
Proof. rewrite Forall_forall. auto. Qed.

(* ===================================================================== *)
(** ** Properties of listenConn *)

(** X6.  [listenConn] returns exactly when a decode or the handling of a
    packet fails.  When it returns, closing the connection is its last
    action and it closes the connection once; as long as it does not return
    it does not close the connection. *)
Theorem listenConn_closes_when_it_returns (i : Ingestion) (c : Conn) (logger : log.Logger) :
  (snd (listenConn i c logger) = true ↔
     ∃ a, a ∈ fst (listenConn i c logger) ∧ isFailure a = true) ∧
  (snd (listenConn i c logger) = true →
     ∃ actions, fst (listenConn i c logger) = actions ++ [ConnClose c] ∧
                ∀ c', ConnClose c' ∉ actions) ∧
  (snd (listenConn i c logger) = false →
     ∀ c', ConnClose c' ∉ fst (listenConn i c logger)).
Proof.
  destruct (listenConn_course i c logger)
    as (quiet & Hquiet & [[-> ->] | (-> & tail & Htail & ->)]).
  - split_and!; try done.
    + split; [done|]. intros (a & Hin & Ha).
      by rewrite (Forall_isQuiet_not_failure quiet a) in Ha.
    + intros _ c' Hin. by apply (isQuiet_Forall_elem _ _ Hquiet) in Hin.
  - apply ending_inv in Htail as (failure & rest & -> & Hfailure & Hrest).
    split_and!; try done.
    + split; [|done]. intros _. exists failure. split; [|done].
      apply elem_of_app. right. left.
    + intros _. exists (quiet ++ failure :: rest).
      split; [by rewrite <- app_assoc|].
      intros c' Hin. apply elem_of_app in Hin as [Hin | Hin].
      * by apply (isQuiet_Forall_elem _ _ Hquiet) in Hin.
      * apply elem_of_cons in Hin as [<- | Hin]; [done|].
        destruct Hrest as [-> | [message ->]]; elem_cases Hin.
Qed.

(** X7.  Nothing is decoded or handled after the first failure: the actions
    before it all went well, and after it [listenConn] writes at most one
    line to its logger, closes the connection and returns. *)
Theorem listenConn_stops_at_first_failure
    (i : Ingestion) (c : Conn) (logger : log.Logger)
    (before after : list ListenEffect) (failure : ListenEffect) :
  fst (listenConn i c logger) = before ++ failure :: after →
  isFailure failure = true →
  snd (listenConn i c logger) = true ∧
  (∀ a, a ∈ before → isQuiet a = true) ∧
  (after = [ConnClose c] ∨ ∃ message, after = [Printf logger message; ConnClose c]).
Proof.
  intros Hsplit Hfailure.
  destruct (listenConn_course i c logger)
    as (quiet & Hquiet & [[-> Heq] | (-> & tail & Htail & Heq)]);
    rewrite Heq in Hsplit.
  - exfalso. apply (no_element_of_kind isFailure _ _ _ _ Hsplit Hfailure).
    intros a. by apply Forall_isQuiet_not_failure.
  - apply ending_inv in Htail as (f & rest & -> & Hf & Hrest). simpl in Hsplit.
    apply (split_at_only isFailure) in Hsplit as (-> & -> & ->); [|done| |].
    + split_and!; [done | intros a; by apply isQuiet_Forall_elem |].
      destruct Hrest as [-> | [message ->]]; [by left | right; by exists message].
    + intros a. by apply Forall_isQuiet_not_failure.
    + intros a Hin. destruct Hrest as [-> | [message ->]]; elem_cases Hin; by subst.
Qed.

Lemma listenConn_stops_at_first_failure_witness :
  let i := sampleIngestion (inr "reset") (λ data, match data with [b] => Byte.eqb b Byte.x03 | _ => false end) in
  let c := newConn (net.conn 1) None (log.New log.Stderr "" log.LstdFlags) in
  let logger := log.New log.Stderr "" log.LstdFlags in
  let before :=
    [Decode (inl [[Byte.x01]; [Byte.x02]]);
     HandleIncoming [Byte.x01] None; HandleIncoming [Byte.x02] None;
     Decode (inl []); Decode (inl [[Byte.x03]])] in
  let failure := HandleIncoming [Byte.x03] (Some "unexpected packet") in
  let after := [Printf logger "error: unexpected packet"; ConnClose c] in
  fst (listenConn i c logger) = before ++ failure :: after ∧
  isFailure failure = true ∧
  snd (listenConn i c logger) = true ∧
  (∀ a, a ∈ before → isQuiet a = true) ∧
  (after = [ConnClose c] ∨ ∃ message, after = [Printf logger message; ConnClose c]).
Proof.
  intros i c logger before failure after.
  assert (fst (listenConn i c logger) = before ++ failure :: after) as Hsplit.
  { vm_compute. reflexivity. }
  split; [exact Hsplit|]. split; [reflexivity|].
  exact (listenConn_stops_at_first_failure i c logger before after failure Hsplit eq_refl).
Defined.

(** Sorts out an action known to be among quiet actions followed by a list
    of known shape. *)
Ltac course_cases Hquiet H :=
  apply elem_of_app in H as [H | H];
  [apply (isQuiet_Forall_elem _ _ Hquiet) in H; discriminate H
  |elem_cases H; simplify_eq].

(** X8.  What [listenConn] writes to its logger: nothing for a decode error
    that [raknet.ErrConnectionClosed] recognises; for any other decode error
    the line "error reading from client connection: " with the error and a
    line feed; for a packet refused the line "error: " with the error.  It
    writes to the logger it was given, and never more than one line. *)
Theorem listenConn_logs_the_failure (i : Ingestion) (c : Conn) (logger : log.Logger) :
  (∀ err, Decode (inr err) ∈ fst (listenConn i c logger) →
     raknet_ErrConnectionClosed i err = true →
     ∀ l message, Printf l message ∉ fst (listenConn i c logger)) ∧
  (∀ err, Decode (inr err) ∈ fst (listenConn i c logger) →
     raknet_ErrConnectionClosed i err = false →
     Printf logger ("error reading from client connection: " +:+ err +:+ newline)
       ∈ fst (listenConn i c logger)) ∧
  (∀ data err, HandleIncoming data (Some err) ∈ fst (listenConn i c logger) →
     Printf logger ("error: " +:+ err) ∈ fst (listenConn i c logger)) ∧
  (∀ l message l' message',
     Printf l message ∈ fst (listenConn i c logger) →
     Printf l' message' ∈ fst (listenConn i c logger) →
     l = logger ∧ l' = logger ∧ message = message').
Proof.
  destruct (listenConn_course i c logger)
    as (quiet & Hquiet & [[_ ->] | (_ & tail & Htail & ->)]).
  - split_and!.
    + intros err Hin. by apply (isQuiet_Forall_elem _ _ Hquiet) in Hin.
    + intros err Hin. by apply (isQuiet_Forall_elem _ _ Hquiet) in Hin.
    + intros data err Hin. by apply (isQuiet_Forall_elem _ _ Hquiet) in Hin.
    + intros l message l' message' Hin.
      by apply (isQuiet_Forall_elem _ _ Hquiet) in Hin.
  - destruct Htail as [e Hclosed | e Hclosed | d e]; simpl; split_and!.
    + intros err Hin _ l message Hlog. course_cases Hquiet Hlog.
    + intros err Hin Hopen. course_cases Hquiet Hin. congruence.
    + intros data err Hin. course_cases Hquiet Hin.
    + intros l message l' message' Hlog. course_cases Hquiet Hlog.
    + intros err Hin Hclosed' l message Hlog. course_cases Hquiet Hin. congruence.
    + intros err Hin _. course_cases Hquiet Hin.
      apply elem_of_app. right. right. left.
    + intros data err Hin. course_cases Hquiet Hin.
    + intros l message l' message' Hlog Hlog'.
      course_cases Hquiet Hlog. by course_cases Hquiet Hlog'.
    + intros err Hin. course_cases Hquiet Hin.
    + intros err Hin. course_cases Hquiet Hin.
    + intros data err Hin. course_cases Hquiet Hin.
      apply elem_of_app. right. right. left.
    + intros l message l' message' Hlog Hlog'.
      course_cases Hquiet Hlog. by course_cases Hquiet Hlog'.
Qed.

(** X9.  [listenConn] takes the answers of the decoder in order and gives
    the packets of the batches to [conn.handleIncoming] in the order
    decoded, each once, without skipping any: the packets handled are a
    prefix of the packets decoded, and all of them unless a packet was
    refused. *)
Theorem listenConn_handles_packets_in_order
    (i : Ingestion) (c : Conn) (logger : log.Logger) :
  decodeAnswers (fst (listenConn i c logger)) `prefix_of` decoder_Decode i ∧
  handledPackets (fst (listenConn i c logger))
    `prefix_of` decodedPackets (decodeAnswers (fst (listenConn i c logger))) ∧
  ((∀ data err, HandleIncoming data (Some err) ∉ fst (listenConn i c logger)) →
   handledPackets (fst (listenConn i c logger))
     = decodedPackets (decodeAnswers (fst (listenConn i c logger)))) ∧
  (∀ data answer, HandleIncoming data answer ∈ fst (listenConn i c logger) →
     ∃ before, answer = conn_handleIncoming i before data).
Proof.
  rewrite listenConn_eq. simpl.
  destruct (listenLoop_spec i logger (decoder_Decode i) [])
    as (quiet & _ & _ & Hdecoded & Hhandled & Hall).
  assert (∀ (l : list ListenEffect) (b : bool),
            decodeAnswers (l ++ (if b then [ConnClose c] else [])) = decodeAnswers l ∧
            handledPackets (l ++ (if b then [ConnClose c] else [])) = handledPackets l)
    as Hclose.
  { intros l []; listen_simpl; by rewrite ?app_nil_r. }
  destruct (Hclose (fst (listenLoop i logger (decoder_Decode i) []))
              (snd (listenLoop i logger (decoder_Decode i) []))) as [-> ->].
  split_and!; [done | done | |].
  - intros Hnone. apply Hall. intros data err Hin. apply (Hnone data err).
    apply elem_of_app. by left.
  - intros data answer Hin. apply elem_of_app in Hin as [Hin | Hin].
    + by apply listenLoop_answers in Hin.
    + destruct (snd (listenLoop i logger (decoder_Decode i) [])); elem_cases Hin.
Qed.

(** X10.  While the decoder answers with batches and every packet is
    accepted, [listenConn] does not return: it neither closes the connection
    nor writes to the logger, and it has handled every packet decoded. *)
Theorem listenConn_keeps_listening (i : Ingestion) (c : Conn) (logger : log.Logger) :
  (∀ answer, answer ∈ decoder_Decode i → ∃ packets, answer = inl packets) →
  (∀ before data, conn_handleIncoming i before data = None) →
  snd (listenConn i c logger) = false ∧
  (∀ a, a ∈ fst (listenConn i c logger) → isQuiet a = true) ∧
  decodeAnswers (fst (listenConn i c logger)) = decoder_Decode i ∧
  handledPackets (fst (listenConn i c logger)) = decodedPackets (decoder_Decode i).
Proof.
  intros Hbatches Haccepted. rewrite listenConn_eq. simpl.
  destruct (listenLoop_spec i logger (decoder_Decode i) [])
    as (quiet & Hquiet & Hend & Hdecoded & _).
  destruct (snd (listenLoop i logger (decoder_Decode i) [])).
  - exfalso. destruct Hend as (tail & Htail & Heq).
    apply ending_inv in Htail as (failure & rest & -> & Hfailure & _).
    assert (failure ∈ fst (listenLoop i logger (decoder_Decode i) [])) as Hin.
    { rewrite Heq. apply elem_of_app. right. left. }
    destruct failure as [[packets|err] | data [err|] | |]; try discriminate Hfailure.
    + apply elem_of_decodeAnswers in Hin.
      destruct Hdecoded as [more Hmore].
      destruct (Hbatches (inr err)) as [packets [=]].
      rewrite Hmore. apply elem_of_app. by left.
    + apply listenLoop_answers in Hin as [before Hanswer].
      by rewrite Haccepted in Hanswer.
  - destruct Hend as (-> & Hd & Hh). rewrite app_nil_r.
    split_and!; [done | | done | done].
    intros a. by apply isQuiet_Forall_elem.
Qed.

Lemma listenConn_keeps_listening_witness :
  let i := sampleIngestion (inl [[Byte.x04]]) (λ _, false) in
  let c := newConn (net.conn 1) None (log.New log.Stderr "" log.LstdFlags) in
  let logger := log.New log.Stderr "" log.LstdFlags in
  (∀ answer, answer ∈ decoder_Decode i → ∃ packets, answer = inl packets) ∧
  (∀ before data, conn_handleIncoming i before data = None) ∧
  snd (listenConn i c logger) = false ∧
  (∀ a, a ∈ fst (listenConn i c logger) → isQuiet a = true) ∧
  decodeAnswers (fst (listenConn i c logger)) = decoder_Decode i ∧
  handledPackets (fst (listenConn i c logger))
    = [[Byte.x01]; [Byte.x02]; [Byte.x03]; [Byte.x04]] ∧
  handledPackets (fst (listenConn i c logger)) = decodedPackets (decoder_Decode i).
Proof.
  intros i c logger.
  assert (∀ answer, answer ∈ decoder_Decode i → ∃ packets, answer = inl packets)
    as Hbatches.
  { intros answer Hin. subst i. simpl in Hin. elem_cases Hin; subst; by eexists. }
  assert (∀ before data, conn_handleIncoming i before data = None) as Haccepted.
  { done. }
  split; [exact Hbatches|]. split; [exact Haccepted|].
  pose proof (listenConn_keeps_listening i c logger Hbatches Haccepted)
    as (Hblocked & Hquiet & Hdecoded & Hhandled).
  split_and!; [exact Hblocked | exact Hquiet | exact Hdecoded | | exact Hhandled].
  vm_compute. reflexivity.
Defined.

(* ===================================================================== *)
(** ** Further properties of the dialer *)

(** Where an action of a dial comes from. *)
Lemma Dial_actions_cases w dialer network address a :
  a ∈ fst (Dial w dialer network address) →
  a ∈ fst (dialTransport w network address) ∨
  a = GenerateKey (ecdsa_GenerateKey w) ∨
  a ∈ fst (dialAuth w dialer (ecdsa_GenerateKey w)) ∨
  ∃ netConn,
    snd (dialTransport w network address) = inl netConn ∧
    snd (snd (dialAuth w dialer (ecdsa_GenerateKey w))) = None ∧
    let c := dialConn w dialer address netConn (ecdsa_GenerateKey w) in
    let pk := loginPacket w (fst (snd (dialAuth w dialer (ecdsa_GenerateKey w)))) c
                (ecdsa_GenerateKey w) in
    let written := conn_WritePacket w c pk in
    snd (Dial w dialer network address) = snd (afterLogin w c written) ∧
    (a = GoListenConn c (dialErrorLog dialer) ∨
     a = WritePacket c pk written ∨
     a ∈ fst (afterLogin w c written)).
Proof.
  destruct (Dial_paths w dialer network address)
    as [(e & _ & Heq) | [(netConn & e & _ & Hauth & Heq) |
                         (netConn & c & pk & written & Ht & Hauth & -> & -> & -> & Heq)]];
    rewrite Heq; simpl; intros Hin.
  - by left.
  - apply elem_of_app in Hin as [Hin | Hin]; [by left|].
    apply elem_of_cons in Hin as [-> | Hin]; [by right; left | by right; right; left].
  - apply elem_of_app in Hin as [Hin | Hin].
    + apply elem_of_app in Hin as [Hin | Hin]; [by left|].
      apply elem_of_cons in Hin as [-> | Hin]; [by right; left|].
      apply elem_of_app in Hin as [Hin | Hin]; [by right; right; left|].
      apply list_elem_of_singleton in Hin as ->.
      do 3 right. exists netConn. split_and!; try done. by left.
    + do 3 right. exists netConn. split_and!; try done.
      apply elem_of_cons in Hin as [-> | Hin]; [right; by left | right; by right].
Qed.

Lemma afterLogin_failed w c err :
  afterLogin w c (Some err) = ([], Returned None (Some err)).
Proof. done. Qed.

Lemma afterLogin_outcome w c written :
  match snd (afterLogin w c written) with
  | Blocked => written = None ∧ selectCase w = None
  | Returned (Some c') None =>
      written = None ∧ c' = c ∧ selectCase w = Some connected
  | Returned None (Some err) =>
      written = Some err ∨
      (written = None ∧ err = "connection timeout" ∧ selectCase w = Some close)
  | _ => False
  end.
Proof.
  destruct written as [err|]; [simpl; by left|].
  rewrite afterLogin_selected. destruct (selectCase w) as [[]|]; simpl; eauto 6.
Qed.

Lemma dialAuth_no_email w dialer key :
  Email dialer = "" → dialAuth w dialer key = ([], ("", None)).
Proof. intros H. unfold dialAuth. by rewrite H. Qed.

Lemma dialAuth_chain w dialer key xsts k chain :
  RequestMinecraftChain xsts k (inl chain) ∈ fst (dialAuth w dialer key) →
  k = key ∧ snd (dialAuth w dialer key) = (chain, None).
Proof.
  unfold dialAuth. destruct (negb _); [|intros Hin; by apply elem_of_nil in Hin].
  rewrite authChain_eq. repeat case_match; simpl; intros Hin; elem_cases Hin; by simplify_eq.
Qed.

(** X11.  A dial returns a connection exactly when the transport dial, the
    authentication if one is asked for, and the writing of the login packet
    succeed and the select proceeds on the connected signal; the connection
    is the one the dial set up and the error is nil.  The select proceeds on
    the connected signal exactly when the connected channel is ready and the
    close channel is not, or both are ready and the runtime picks the
    connected case, or neither is ready and the connected signal is the first
    to fire. *)
Theorem Dial_returns_connection_iff
    (w : World) (dialer : Dialer) (network address : string)
    (c : Conn) (err : option error) :
  (snd (Dial w dialer network address) = Returned (Some c) err ↔
   err = None ∧
   ∃ netConn,
     snd (dialTransport w network address) = inl netConn ∧
     snd (snd (dialAuth w dialer (ecdsa_GenerateKey w))) = None ∧
     c = dialConn w dialer address netConn (ecdsa_GenerateKey w) ∧
     conn_WritePacket w c
       (loginPacket w (fst (snd (dialAuth w dialer (ecdsa_GenerateKey w)))) c
          (ecdsa_GenerateKey w)) = None ∧
     selectCase w = Some connected) ∧
  (selectCase w = Some connected ↔
   (connected ∈ readySignals w ∧ (close ∉ readySignals w)) ∨
   (connected ∈ readySignals w ∧ close ∈ readySignals w ∧ selectPick w = connected) ∨
   ((connected ∉ readySignals w) ∧ (close ∉ readySignals w) ∧
    ∃ rest, signals w = connected :: rest)).
Proof.
  split.
  - destruct (Dial_paths w dialer network address)
      as [(e & Ht & Heq) | [(netConn & e & Ht & Hauth & Heq) |
                            (netConn & c0 & pk & written & Ht & Hauth & -> & -> & -> & Heq)]];
      rewrite Heq; simpl.
    + split; [done|]. intros (_ & netConn & Ht' & _). congruence.
    + split; [done|]. intros (_ & netConn' & _ & Hauth' & _). congruence.
    + pose proof (afterLogin_outcome w
                    (dialConn w dialer address netConn (ecdsa_GenerateKey w))
                    (conn_WritePacket w
                       (dialConn w dialer address netConn (ecdsa_GenerateKey w))
                       (loginPacket w (fst (snd (dialAuth w dialer (ecdsa_GenerateKey w))))
                          (dialConn w dialer address netConn (ecdsa_GenerateKey w))
                          (ecdsa_GenerateKey w)))) as Hout.
      split.
      * intros Hreturned. rewrite Hreturned in Hout.
        destruct err; [done|]. destruct Hout as (Hwritten & -> & Hcase).
        split; [done|]. by exists netConn.
      * intros (-> & netConn' & Ht' & _ & -> & Hwritten & Hcase).
        assert (netConn' = netConn) as -> by congruence.
        by rewrite Hwritten, afterLogin_selected, Hcase.
  - rewrite selectCase_eq. split.
    + repeat case_decide; intros Hcase; simplify_eq.
      * right. by left.
      * by left.
      * do 2 right. destruct (signals w) as [|s rest]; simplify_eq/=. eauto.
    + intros [[Hconnected Hclose] | [(Hconnected & Hclose & Hpick) |
                                     (Hconnected & Hclose & rest & Hsignals)]].
      * by rewrite decide_True, decide_False.
      * rewrite !decide_True by done. by rewrite Hpick.
      * rewrite !decide_False by done. by rewrite Hsignals.
Qed.

(** X12.  A dial that returns gives either a connection and no error, or no
    connection and an error.  It does not return, having no timer of its
    own, exactly when the login packet was written and neither signal of the
    connection ever fires. *)
Theorem Dial_outcomes (w : World) (dialer : Dialer) (network address : string) :
  (snd (Dial w dialer network address) = Blocked ∨
   (∃ c, snd (Dial w dialer network address) = Returned (Some c) None) ∨
   (∃ err, snd (Dial w dialer network address) = Returned None (Some err))) ∧
  (snd (Dial w dialer network address) = Blocked ↔
   (∃ c pk, WritePacket c pk None ∈ fst (Dial w dialer network address)) ∧
   signals w = []).
Proof.
  destruct (Dial_paths w dialer network address)
    as [(e & Ht & Heq) | [(netConn & e & Ht & Hauth & Heq) |
                          (netConn & c0 & pk & written & Ht & Hauth & Hc & Hpk & Hw & Heq)]];
    rewrite Heq; simpl.
  - split; [eauto|]. split; [done|]. intros [(c & pk & Hin) _].
    by apply dialTransport_actions in Hin as (_ & ? & _).
  - split; [eauto|]. split; [done|]. intros [(c & pk & Hin) _].
    by apply Dial_setup_actions in Hin as [? _].
  - pose proof (afterLogin_outcome w c0 written) as Hout. split.
    + destruct (snd (afterLogin w c0 written)) as [[c'|] [e|]|]; try done; eauto.
    + split.
      * intros Hblocked. rewrite Hblocked in Hout. destruct Hout as [-> Hcase].
        split; [|by apply selectCase_None]. exists c0, pk. apply elem_of_app. right. left.
      * intros [(c & pk' & Hin) Hsignals].
        assert (written = None) as ->.
        { apply elem_of_app in Hin as [Hin | Hin].
          - change (GenerateKey ?k :: ?l ++ ?m) with ((GenerateKey k :: l) ++ m) in Hin.
            rewrite app_assoc in Hin. apply elem_of_app in Hin as [Hin | Hin].
            + by apply Dial_setup_actions in Hin as [? _].
            + by apply list_elem_of_singleton in Hin.
          - apply elem_of_cons in Hin as [Hin | Hin]; [congruence|].
            by apply afterLogin_actions in Hin as (_ & ? & _). }
        apply selectCase_None in Hsignals. by rewrite afterLogin_selected, Hsignals.
Qed.

(** X13.  The network "raknet" is dialed with [raknet.Dial], any other with
    [net.Dial] on that network, and the dial is the first action.  When it
    fails, [Dial] returns its error as it is and has done nothing else: no
    key generated, no token requested, no task started, no packet written. *)
Theorem Dial_transport
    (w : World) (dialer : Dialer) (network address : string) :
  (∃ rest,
     fst (Dial w dialer network address) =
     (if String.eqb network "raknet"
      then RaknetDial address (raknet_Dial w address)
      else NetDial network address (net_Dial w network address)) :: rest) ∧
  (∀ err,
     raknet_Dial w address = inr err →
     Dial w dialer "raknet" address
       = ([RaknetDial address (inr err)], Returned None (Some err))) ∧
  (∀ err,
     network ≠ "raknet" → net_Dial w network address = inr err →
     Dial w dialer network address
       = ([NetDial network address (inr err)], Returned None (Some err))).
Proof.
  split_and!.
  - destruct (Dial_paths w dialer network address)
      as [(e & Ht & Heq) | [(netConn & e & Ht & Hauth & Heq) |
                            (netConn & c0 & pk & written & Ht & Hauth & Hc & Hpk & Hw & Heq)]];
      rewrite Heq, dialTransport_eq; simpl; eauto.
  - intros err Hfailed.
    destruct (Dial_paths w dialer "raknet" address)
      as [(e & Ht & Heq) | [(netConn & e & Ht & Hauth & Heq) |
                            (netConn & c0 & pk & written & Ht & Hauth & Hc & Hpk & Hw & Heq)]];
      rewrite dialTransport_eq in Ht; simpl in Ht; rewrite Hfailed in Ht;
      simplify_eq.
    by rewrite Heq, dialTransport_eq, Hfailed.
  - intros err Hnetwork Hfailed. apply String.eqb_neq in Hnetwork.
    destruct (Dial_paths w dialer network address)
      as [(e & Ht & Heq) | [(netConn & e & Ht & Hauth & Heq) |
                            (netConn & c0 & pk & written & Ht & Hauth & Hc & Hpk & Hw & Heq)]];
      rewrite dialTransport_eq, Hnetwork in Ht; simpl in Ht; rewrite Hfailed in Ht;
      simplify_eq.
    by rewrite Heq, dialTransport_eq, Hnetwork, Hfailed.
Qed.

(** X14.  When writing the login packet fails, [Dial] returns no connection
    and the error of the write as it is, without waiting for a signal of the
    connection; the ingestion task was started before the write, and [Dial]
    sends nothing on the close channel. *)
Theorem Dial_write_failure
    (w : World) (dialer : Dialer) (network address : string)
    (c : Conn) (pk : Login) (err : error) :
  WritePacket c pk (Some err) ∈ fst (Dial w dialer network address) →
  snd (Dial w dialer network address) = Returned None (Some err) ∧
  GoListenConn c (dialErrorLog dialer) ∈ fst (Dial w dialer network address) ∧
  (∀ s, Receive s ∉ fst (Dial w dialer network address)) ∧
  SendClose ∉ fst (Dial w dialer network address).
Proof.
  intros Hin.
  destruct (Dial_paths w dialer network address)
    as [(e & Ht & Heq) | [(netConn & e & Ht & Hauth & Heq) |
                          (netConn & c0 & pk0 & written & Ht & Hauth & Hc & Hpk & Hw & Heq)]];
    rewrite Heq in Hin |- *; simpl in Hin |- *.
  - by apply dialTransport_actions in Hin as (_ & ? & _).
  - by apply Dial_setup_actions in Hin as [? _].
  - assert (∀ a, a ∈ fst (dialTransport w network address)
                       ++ GenerateKey (ecdsa_GenerateKey w)
                          :: fst (dialAuth w dialer (ecdsa_GenerateKey w))
                          ++ [GoListenConn c0 (dialErrorLog dialer)] →
                 isWrite a = false ∧ (∀ s, a ≠ Receive s) ∧ a ≠ SendClose) as Hsetup.
    { intros a Ha.
      change (GenerateKey ?k :: ?l ++ ?m) with ((GenerateKey k :: l) ++ m) in Ha.
      rewrite app_assoc in Ha. apply elem_of_app in Ha as [Ha | Ha].
      - apply elem_of_app in Ha as [Ha | Ha].
        + rewrite dialTransport_eq in Ha. simpl in Ha.
          apply list_elem_of_singleton in Ha as ->.
          by destruct (String.eqb network "raknet").
        + apply elem_of_cons in Ha as [-> | Ha]; [done|].
          apply dialAuth_actions in Ha. by destruct a.
      - by apply list_elem_of_singleton in Ha as ->. }
    assert (c0 = c ∧ written = Some err) as [-> ->].
    { apply elem_of_app in Hin as [Hin | Hin].
      - by apply Hsetup in Hin as [? _].
      - apply elem_of_cons in Hin as [Hin | Hin]; [by simplify_eq|].
        by apply afterLogin_actions in Hin as (_ & ? & _). }
    rewrite afterLogin_failed. simpl. split_and!; [done | | |].
    + apply elem_of_app. left. apply elem_of_app. right. right.
      apply elem_of_app. right. left.
    + intros s Hs. apply elem_of_app in Hs as [Hs | Hs].
      * apply Hsetup in Hs as (_ & Hs & _). by apply (Hs s).
      * elem_cases Hs.
    + intros Hs. apply elem_of_app in Hs as [Hs | Hs].
      * by apply Hsetup in Hs as (_ & _ & ?).
      * elem_cases Hs.
Qed.

Lemma Dial_write_failure_witness :
  let w := sampleWorld (inl "xsts") (Some "broken pipe") [connected] in
  let dialer := mkDialer None login.emptyClientData "" "" None in
  let c := dialConn w dialer "mc.example.com:19132" (net.conn 2) (Some (ecdsa.privateKey 7)) in
  let pk := loginPacket w "" c (Some (ecdsa.privateKey 7)) in
  WritePacket c pk (Some "broken pipe") ∈ fst (Dial w dialer "tcp" "mc.example.com:19132") ∧
  snd (Dial w dialer "tcp" "mc.example.com:19132") = Returned None (Some "broken pipe") ∧
  GoListenConn c (dialErrorLog dialer) ∈ fst (Dial w dialer "tcp" "mc.example.com:19132") ∧
  (∀ s, Receive s ∉ fst (Dial w dialer "tcp" "mc.example.com:19132")) ∧
  SendClose ∉ fst (Dial w dialer "tcp" "mc.example.com:19132").
Proof.
  intros w dialer c pk.
  assert (WritePacket c pk (Some "broken pipe")
            ∈ fst (Dial w dialer "tcp" "mc.example.com:19132")) as Hin.
  { vm_compute. do 3 right. left. }
  split; [exact Hin|].
  exact (Dial_write_failure w dialer "tcp" "mc.example.com:19132" c pk "broken pipe" Hin).
Defined.

(** X15.  A dial without an e-mail address requests no token, and the login
    packet it writes carries the request encoded from the empty chain, the
    client data of the connection and the key of the dial, with the current
    protocol number. *)
Theorem Dial_unauthenticated
    (w : World) (dialer : Dialer) (network address : string) :
  Email dialer = "" →
  (∀ a, a ∈ fst (Dial w dialer network address) → isAuthAction a = false) ∧
  (∀ c pk answer,
     WritePacket c pk answer ∈ fst (Dial w dialer network address) →
     ConnectionRequest pk = login_Encode w "" (clientData c) (ecdsa_GenerateKey w) ∧
     ClientProtocol pk = 361).
Proof.
  intros Hemail. pose proof (dialAuth_no_email w dialer (ecdsa_GenerateKey w) Hemail) as Hauth.
  split.
  - intros a Hin. apply Dial_actions_cases in Hin
      as [Hin | [-> | [Hin | (netConn & _ & _ & _ & [-> | [-> | Hin]])]]]; try done.
    + by apply dialTransport_actions in Hin as (? & _).
    + rewrite Hauth in Hin. by apply elem_of_nil in Hin.
    + by apply afterLogin_actions in Hin as (? & _).
  - intros c pk answer Hin. apply Dial_actions_cases in Hin
      as [Hin | [Hin | [Hin | (netConn & _ & _ & _ & [Hin | [Hin | Hin]])]]]; try done.
    + by apply dialTransport_actions in Hin as (_ & ? & _).
    + apply dialAuth_actions in Hin. done.
    + injection Hin as -> -> _. by rewrite Hauth.
    + by apply afterLogin_actions in Hin as (_ & ? & _).
Qed.

Lemma Dial_unauthenticated_witness :
  let w := sampleWorld (inr "denied") None [connected] in
  let dialer := mkDialer None login.emptyClientData "" "secret" None in
  Email dialer = "" ∧
  snd (Dial w dialer "raknet" "mc.example.com:19132")
    = Returned (Some (dialConn w dialer "mc.example.com:19132" (net.conn 1)
                        (Some (ecdsa.privateKey 7)))) None ∧
  (∀ a, a ∈ fst (Dial w dialer "raknet" "mc.example.com:19132") → isAuthAction a = false) ∧
  (∀ c pk answer,
     WritePacket c pk answer ∈ fst (Dial w dialer "raknet" "mc.example.com:19132") →
     ConnectionRequest pk = login_Encode w "" (clientData c) (ecdsa_GenerateKey w) ∧
     ClientProtocol pk = 361).
Proof.
  intros w dialer. split; [reflexivity|]. split; [vm_compute; reflexivity|].
  exact (Dial_unauthenticated w dialer "raknet" "mc.example.com:19132" eq_refl).
Defined.

Lemma defaultClientData_not_empty w address :
  defaultClientData w address ≠ login.emptyClientData.
Proof. intros H. apply (f_equal login.LanguageCode) in H. discriminate H. Qed.

Lemma dialConn_fields w dialer address nc key :
  netConn (dialConn w dialer address nc key) = nc ∧
  privateKey (dialConn w dialer address nc key) = key ∧
  logger (dialConn w dialer address nc key) = dialErrorLog dialer ∧
  packetFunc (dialConn w dialer address nc key) = PacketFunc dialer ∧
  expectedIDs (dialConn w dialer address nc key)
    = [packet.IDServerToClientHandshake; packet.IDPlayStatus] ∧
  clientData (dialConn w dialer address nc key)
    = (if decide (ClientData dialer = login.emptyClientData)
       then defaultClientData w address else ClientData dialer).
Proof. unfold dialConn. by repeat case_decide. Qed.

Lemma Dial_returned_connection w dialer network address c err :
  snd (Dial w dialer network address) = Returned (Some c) err →
  ∃ nc, snd (dialTransport w network address) = inl nc ∧
        c = dialConn w dialer address nc (ecdsa_GenerateKey w).
Proof.
  destruct (Dial_paths w dialer network address)
    as [(e & Ht & Heq) | [(nc & e & Ht & Hauth & Heq) |
                          (nc & c0 & pk & written & Ht & Hauth & -> & _ & _ & Heq)]];
    rewrite Heq; simpl; try done.
  intros Hreturned.
  pose proof (afterLogin_outcome w
                (dialConn w dialer address nc (ecdsa_GenerateKey w)) written) as Hout.
  rewrite Hreturned in Hout. destruct err; [done|]. destruct Hout as (_ & -> & _).
  by exists nc.
Qed.

(** X16.  When the chain request of a dial succeeds, the dial goes on to
    write the login packet, and one key serves throughout: the key the dial
    generated is the key the chain was requested for, the key of the
    connection, and the key the login request is encoded with, together with
    the chain obtained. *)
Theorem Dial_sends_chain_obtained
    (w : World) (dialer : Dialer) (network address : string)
    (xsts : string) (key : option ecdsa.PrivateKey) (chain : string) :
  RequestMinecraftChain xsts key (inl chain) ∈ fst (Dial w dialer network address) →
  key = ecdsa_GenerateKey w ∧
  GenerateKey key ∈ fst (Dial w dialer network address) ∧
  ∃ c pk answer,
    WritePacket c pk answer ∈ fst (Dial w dialer network address) ∧
    privateKey c = key ∧
    ConnectionRequest pk = login_Encode w chain (clientData c) key.
Proof.
  intros Hin.
  assert (key = ecdsa_GenerateKey w ∧
          snd (dialAuth w dialer (ecdsa_GenerateKey w)) = (chain, None)) as [-> Hauth].
  { apply Dial_actions_cases in Hin
      as [Hin | [Hin | [Hin | (netConn & _ & _ & _ & [Hin | [Hin | Hin]])]]]; try done.
    - by apply dialTransport_actions in Hin as (? & _).
    - by apply dialAuth_chain in Hin.
    - by apply afterLogin_actions in Hin as (? & _). }
  destruct (Dial_paths w dialer network address)
    as [(e & Ht & Heq) | [(netConn & e & Ht & Hfailed & Heq) |
                          (netConn & c0 & pk0 & written & Ht & _ & -> & -> & _ & Heq)]].
  - exfalso. rewrite Heq in Hin. simpl in Hin.
    by apply dialTransport_actions in Hin as (? & _).
  - rewrite Hauth in Hfailed. done.
  - rewrite Heq. simpl. split; [done|]. split.
    + apply elem_of_app. left. apply elem_of_app. right. left.
    + eexists _, _, written. split; [apply elem_of_app; right; left|].
      rewrite Hauth. split; [apply dialConn_fields | done].
Qed.

Lemma Dial_sends_chain_obtained_witness :
  let w := sampleWorld (inl "xsts") None [connected] in
  let dialer := mkDialer None login.emptyClientData "steve@example.com" "secret" None in
  RequestMinecraftChain "xsts" (Some (ecdsa.privateKey 7)) (inl "chain")
    ∈ fst (Dial w dialer "raknet" "mc.example.com:19132") ∧
  Some (ecdsa.privateKey 7) = ecdsa_GenerateKey w ∧
  GenerateKey (Some (ecdsa.privateKey 7))
    ∈ fst (Dial w dialer "raknet" "mc.example.com:19132") ∧
  ∃ c pk answer,
    WritePacket c pk answer ∈ fst (Dial w dialer "raknet" "mc.example.com:19132") ∧
    privateKey c = Some (ecdsa.privateKey 7) ∧
    ConnectionRequest pk = login_Encode w "chain" (clientData c) (Some (ecdsa.privateKey 7)).
Proof.
  intros w dialer.
  assert (RequestMinecraftChain "xsts" (Some (ecdsa.privateKey 7)) (inl "chain")
            ∈ fst (Dial w dialer "raknet" "mc.example.com:19132")) as Hin.
  { vm_compute. do 4 right. left. }
  split; [exact Hin|].
  exact (Dial_sends_chain_obtained w dialer "raknet" "mc.example.com:19132"
           "xsts" (Some (ecdsa.privateKey 7)) "chain" Hin).
Defined.

(** X17.  The connection a dial starts the ingestion task on, writes the
    login packet to and returns: it is built on the transport connection
    dialed; its logger is the dialer's, or one on the standard error with
    the standard flags when the dialer has none; it expects the
    server-to-client handshake and the play status; its packet function is
    the dialer's; its client data is the dialer's when that is not the zero
    value and the default for the address otherwise, and is never the zero
    value. *)
Theorem Dial_sets_up_connection
    (w : World) (dialer : Dialer) (network address : string)
    (c : Conn) (l : log.Logger) :
  GoListenConn c l ∈ fst (Dial w dialer network address) →
  snd (dialTransport w network address) = inl (netConn c) ∧
  l = logger c ∧
  logger c = match ErrorLog dialer with
             | Some given => given
             | None => log.New log.Stderr "" 3
             end ∧
  expectedIDs c = [packet.IDServerToClientHandshake; packet.IDPlayStatus] ∧
  packetFunc c = PacketFunc dialer ∧
  privateKey c = ecdsa_GenerateKey w ∧
  clientData c = (if decide (ClientData dialer = login.emptyClientData)
                  then defaultClientData w address else ClientData dialer) ∧
  login.ServerAddress (defaultClientData w address) = address ∧
  clientData c ≠ login.emptyClientData ∧
  (∀ c' pk answer,
     WritePacket c' pk answer ∈ fst (Dial w dialer network address) → c' = c) ∧
  (∀ c' err,
     snd (Dial w dialer network address) = Returned (Some c') err → c' = c).
Proof.
  intros Hin.
  assert (∃ nc,
            snd (dialTransport w network address) = inl nc ∧
            c = dialConn w dialer address nc (ecdsa_GenerateKey w) ∧
            l = dialErrorLog dialer) as (nc & Ht & -> & ->).
  { apply Dial_actions_cases in Hin
      as [Hin | [Hin | [Hin | (nc & Ht & _ & _ & [Hin | [Hin | Hin]])]]]; try done.
    - by apply dialTransport_actions in Hin as (_ & _ & ?).
    - by apply dialAuth_actions in Hin.
    - injection Hin as -> ->. by exists nc.
    - by apply afterLogin_actions in Hin as (_ & _ & ?). }
  destruct (dialConn_fields w dialer address nc (ecdsa_GenerateKey w))
    as (Hnc & Hkey & Hlogger & Hfunc & Hids & Hdata).
  split_and!; try done.
  - by rewrite Hnc.
  - rewrite Hdata. case_decide; [apply defaultClientData_not_empty | done].
  - intros c' pk answer Hw. apply Dial_actions_cases in Hw
      as [Hw | [Hw | [Hw | (nc' & Ht' & _ & _ & [Hw | [Hw | Hw]])]]]; try done.
    + by apply dialTransport_actions in Hw as (_ & ? & _).
    + by apply dialAuth_actions in Hw.
    + injection Hw as -> _ _. congruence.
    + by apply afterLogin_actions in Hw as (_ & ? & _).
  - intros c' err Hreturned.
    apply Dial_returned_connection in Hreturned as (nc' & Ht' & ->). congruence.
Qed.

Lemma Dial_sets_up_connection_witness :
  let w := sampleWorld (inl "xsts") None [connected] in
  let data := login.mkClientData 1 2 "1.12.0" "d" "nl_NL" "Alex" "s" "g" "a" "k" "" in
  let given := log.New (log.writer 4) "mc " 0 in
  let dialer := mkDialer (Some given) data "" "" (Some (observer 9)) in
  let c := mkConn (net.conn 2) (Some (ecdsa.privateKey 7)) given data (Some (observer 9))
             [packet.IDServerToClientHandshake; packet.IDPlayStatus] in
  GoListenConn c given ∈ fst (Dial w dialer "tcp" "mc.example.com:19132") ∧
  snd (Dial w dialer "tcp" "mc.example.com:19132") = Returned (Some c) None ∧
  snd (dialTransport w "tcp" "mc.example.com:19132") = inl (netConn c) ∧
  given = logger c ∧
  logger c = match ErrorLog dialer with
             | Some given => given
             | None => log.New log.Stderr "" 3
             end ∧
  expectedIDs c = [packet.IDServerToClientHandshake; packet.IDPlayStatus] ∧
  packetFunc c = PacketFunc dialer ∧
  privateKey c = ecdsa_GenerateKey w ∧
  clientData c = (if decide (ClientData dialer = login.emptyClientData)
                  then defaultClientData w "mc.example.com:19132" else ClientData dialer) ∧
  login.ServerAddress (defaultClientData w "mc.example.com:19132")
    = "mc.example.com:19132" ∧
  clientData c ≠ login.emptyClientData ∧
  (∀ c' pk answer,
     WritePacket c' pk answer ∈ fst (Dial w dialer "tcp" "mc.example.com:19132") → c' = c) ∧
  (∀ c' err,
     snd (Dial w dialer "tcp" "mc.example.com:19132") = Returned (Some c') err → c' = c).
Proof.
  intros w data given dialer c.
  assert (GoListenConn c given ∈ fst (Dial w dialer "tcp" "mc.example.com:19132")) as Hin.
  { vm_compute. do 2 right. left. }
  split; [exact Hin|]. split; [vm_compute; reflexivity|].
  exact (Dial_sets_up_connection w dialer "tcp" "mc.example.com:19132" c given Hin).
Defined.

(** X18.  [authChain] asks for the Live token first, with the e-mail address
    and the password; it asks for the XSTS token only with a Live token it
    obtained, and for the chain only with an XSTS token it obtained and the
    key it was given; it stops at the first exchange that fails.  It returns
    a chain and no error exactly when the chain request succeeded, and that
    chain; with an error it returns the empty chain. *)
Theorem authChain_stages_in_order
    (w : World) (email password : string) (key : option ecdsa.PrivateKey) :
  (∃ answer rest,
     fst (authChain w email password key)
       = RequestLiveToken email password answer :: rest) ∧
  (∀ liveToken answer,
     RequestXSTSToken liveToken answer ∈ fst (authChain w email password key) →
     RequestLiveToken email password (inl liveToken)
       ∈ fst (authChain w email password key)) ∧
  (∀ xsts k answer,
     RequestMinecraftChain xsts k answer ∈ fst (authChain w email password key) →
     k = key ∧
     ∃ liveToken, RequestXSTSToken liveToken (inl xsts)
                    ∈ fst (authChain w email password key)) ∧
  (∀ before failure after s err,
     fst (authChain w email password key) = before ++ failure :: after →
     stageFailed [failure] s err → after = []) ∧
  (∀ chain,
     snd (authChain w email password key) = (chain, None) ↔
     ∃ xsts, RequestMinecraftChain xsts key (inl chain)
               ∈ fst (authChain w email password key)) ∧
  (∀ err, snd (snd (authChain w email password key)) = Some err →
          fst (snd (authChain w email password key)) = "").
Proof.
  rewrite authChain_eq.
  destruct (auth_RequestLiveToken w email password) as [liveToken|e1];
    [destruct (auth_RequestXSTSToken w liveToken) as [xsts|e2];
     [destruct (auth_RequestMinecraftChain w xsts key) as [chain|e3]|]|];
    simpl; split_and!; eauto; try done;
    try (intros ? ? Hin; elem_cases Hin; simplify_eq; by repeat constructor);
    try (intros ? ? ? Hin; elem_cases Hin; simplify_eq;
         split; try done; eexists; by repeat constructor);
    try (intros before failure after s err Hsplit Hfailed;
         destruct s; simpl in Hfailed; repeat (destruct Hfailed as [? Hfailed]);
         apply list_elem_of_singleton in Hfailed as <-;
         repeat (destruct before as [|? before]; simplify_eq/=); done);
    (intros c; split;
       [intros [= <-]; eexists; by repeat constructor
       |intros [? Hin]; elem_cases Hin; by simplify_eq]).
Qed.

(** X19.  The package-level [Dial] dials with the zero [Dialer]: it requests
    no token, logs to the standard error with the standard flags, sends the
    default client data for the address and sets no packet function. *)
Theorem DialDefault_uses_defaults (w : World) (network address : string) :
  (∀ a, a ∈ fst (DialDefault w network address) → isAuthAction a = false) ∧
  (∀ c l,
     GoListenConn c l ∈ fst (DialDefault w network address) →
     l = log.New log.Stderr "" 3 ∧
     logger c = log.New log.Stderr "" 3 ∧
     clientData c = defaultClientData w address ∧
     packetFunc c = None) ∧
  (∀ c pk answer,
     WritePacket c pk answer ∈ fst (DialDefault w network address) →
     ConnectionRequest pk
       = login_Encode w "" (defaultClientData w address) (ecdsa_GenerateKey w)).
Proof.
  unfold DialDefault.
  remember (mkDialer None login.emptyClientData "" "" None) as dialer eqn:Hdialer.
  assert (dialAuth w dialer (ecdsa_GenerateKey w) = ([], ("", None))) as Hauth.
  { apply dialAuth_no_email. by subst. }
  assert (∀ nc, clientData (dialConn w dialer address nc (ecdsa_GenerateKey w))
                = defaultClientData w address) as Hdata.
  { intros nc.
    destruct (dialConn_fields w dialer address nc (ecdsa_GenerateKey w))
      as (_ & _ & _ & _ & _ & ->).
    subst. by destruct (decide _). }
  assert (dialErrorLog dialer = log.New log.Stderr "" 3 ∧ PacketFunc dialer = None)
    as [Hlog Hnone].
  { by subst. }
  clear Hdialer. split_and!.
  - intros a Hin. apply Dial_actions_cases in Hin
      as [Hin | [-> | [Hin | (nc & _ & _ & _ & [-> | [-> | Hin]])]]]; try done.
    + by apply dialTransport_actions in Hin as (? & _).
    + rewrite Hauth in Hin. by apply elem_of_nil in Hin.
    + by apply afterLogin_actions in Hin as (? & _).
  - intros c l Hin. apply Dial_actions_cases in Hin
      as [Hin | [Hin | [Hin | (nc & _ & _ & _ & [Hin | [Hin | Hin]])]]]; try done.
    + by apply dialTransport_actions in Hin as (_ & _ & ?).
    + by apply dialAuth_actions in Hin.
    + injection Hin as -> ->. rewrite Hdata.
      destruct (dialConn_fields w dialer address nc (ecdsa_GenerateKey w))
        as (_ & _ & Hlogger & Hfunc & _). by rewrite Hlogger, Hfunc, Hlog, Hnone.
    + by apply afterLogin_actions in Hin as (_ & _ & ?).
  - intros c pk answer Hin. apply Dial_actions_cases in Hin
      as [Hin | [Hin | [Hin | (nc & _ & _ & _ & [Hin | [Hin | Hin]])]]]; try done.
    + by apply dialTransport_actions in Hin as (_ & ? & _).
    + by apply dialAuth_actions in Hin.
    + injection Hin as -> -> _. unfold loginPacket. cbn [ConnectionRequest].
      by rewrite Hauth, Hdata.
    + by apply afterLogin_actions in Hin as (_ & ? & _).
Qed.

(* ===================================================================== *)
(** ** The integer conversions of NextPack *)

Lemma int32_range x : - 2 ^ 31 <= int32 x < 2 ^ 31.
Proof.
  unfold int32. pose proof (Z.mod_pos_bound (x + 2 ^ 31) (2 ^ 32) ltac:(lia)). lia.
Qed.

Lemma int32_congruent x : (int32 x - x) mod 2 ^ 32 = 0.
Proof.
  unfold int32.
  replace ((x + 2 ^ 31) mod 2 ^ 32 - 2 ^ 31 - x)
    with ((x + 2 ^ 31) mod 2 ^ 32 - (x + 2 ^ 31)) by lia.
  rewrite Zminus_mod, Z.mod_mod by lia.
  rewrite Z.sub_diag. done.
Qed.

(** X20.  The chunk count of the packet [NextPack] returns is the count of
    the pack cut to 32 bits: it lies in the int32 range and differs from the
    count by a multiple of 2^32, so that a count from 2^31 up to 2^32 - 1 is
    sent as a negative number.  The size is sent as it is. *)
Theorem NextPack_chunk_count_is_cut_to_int32
    (packChunkSize : Z) (range : rangeChoice) (queue : resourcePackQueue)
    (queue' : resourcePackQueue) (pk : packet.ResourcePackDataInfo) :
  NextPack packChunkSize range queue = (queue', Some pk, true) →
  ∃ pack,
    currentPack queue' = Some pack ∧
    - 2 ^ 31 <= packet.ChunkCount pk < 2 ^ 31 ∧
    (packet.ChunkCount pk - resource.DataChunkCount pack packChunkSize) mod 2 ^ 32 = 0 ∧
    (2 ^ 31 <= resource.DataChunkCount pack packChunkSize < 2 ^ 32 →
     packet.ChunkCount pk = resource.DataChunkCount pack packChunkSize - 2 ^ 32) ∧
    (is_int (resource.Len pack) → packet.Size pk = resource.Len pack).
Proof.
  unfold NextPack. destruct (range (packsToDownload queue)) as [[index pack]|]; [|done].
  intros [= <- <-]. exists pack. simpl.
  split; [done|]. split; [apply int32_range|]. split; [apply int32_congruent|]. split.
  - intros Hbig. unfold int32.
    replace (resource.DataChunkCount pack packChunkSize + 2 ^ 31)
      with ((resource.DataChunkCount pack packChunkSize - 2 ^ 31) + 1 * 2 ^ 32) by lia.
    rewrite Z.mod_add by lia. rewrite Z.mod_small by lia. lia.
  - apply int64_small.
Qed.

Lemma NextPack_chunk_count_is_cut_to_int32_witness :
  let huge := resource.mkPack "H" "1.0" (2 ^ 31 * 128) "ch" in
  let queue := fst (Request (newQueue [huge]) ["H_1.0"]) in
  let queue' := mkQueue [huge] ∅ (Some huge) 0 0 ∅ ∅ in
  let pk := packet.mkResourcePackDataInfo "H" 128 (- 2 ^ 31) (2 ^ 31 * 128) "ch" in
  NextPack 128 rangeFirst queue = (queue', Some pk, true) ∧
  resource.DataChunkCount huge 128 = 2 ^ 31 ∧
  ∃ pack,
    currentPack queue' = Some pack ∧
    - 2 ^ 31 <= packet.ChunkCount pk < 2 ^ 31 ∧
    (packet.ChunkCount pk - resource.DataChunkCount pack 128) mod 2 ^ 32 = 0 ∧
    (2 ^ 31 <= resource.DataChunkCount pack 128 < 2 ^ 32 →
     packet.ChunkCount pk = resource.DataChunkCount pack 128 - 2 ^ 32) ∧
    (is_int (resource.Len pack) → packet.Size pk = resource.Len pack).
Proof.
  intros huge queue queue' pk.
  assert (NextPack 128 rangeFirst queue = (queue', Some pk, true)) as Hnext.
  { vm_compute. reflexivity. }
  split; [exact Hnext|]. split; [vm_compute; reflexivity|].
  exact (NextPack_chunk_count_is_cut_to_int32 128 rangeFirst queue queue' pk Hnext).
Defined.
